(** * ComputeCpp SYCL headers: index arrays, ranges, ids and work groups

    A shallow embedding of the index types of the header library
    (SYCL/index_array.h, SYCL/index_array_operators.h, SYCL/range.h,
    id.h) and of the host side of group.h, with the properties the
    specification states about them. *)

From Stdlib Require Import ZArith NArith List Lia Bool String FinFun.
Import ListNotations.
Open Scope Z_scope.

(** ** size_t: 64-bit unsigned arithmetic on [Z] *)

Module SizeT.

Definition modulus : Z := 2 ^ 64.

Definition wrap (z : Z) : Z := z mod modulus.

Definition add (a b : Z) : Z := wrap (a + b).

Definition mul (a b : Z) : Z := wrap (a * b).

(** Conversion of a C++ [bool] to [size_t]. *)
Definition of_bool (b : bool) : Z := if b then 1 else 0.

(** Conversion of a [size_t] to [std::ptrdiff_t] (two's complement). *)
Definition to_ptrdiff (z : Z) : Z :=
  if z <? 2 ^ 63 then z else z - modulus.

End SizeT.

(** ** Failures and the result monad *)

(** Modelled from the spec: the enumeration [detail::cpp_error_code] is
    declared in a header that is not part of the sources; only its member
    [TARGET_FORMAT_ERROR] is named by range.h.  The other members are kept
    apart by their numeric value. *)
Inductive cpp_error_code : Type :=
| TARGET_FORMAT_ERROR
| CPP_ERROR_OTHER (code : Z).

Definition CL_SUCCESS : Z := 0.

(** The ways a call can end without a result: a failed
    [COMPUTECPP_ASSERT], a division or remainder by zero, an access past the
    end of an array, or a SYCL exception. *)
Inductive failure : Type :=
| AssertionFailed (msg : string)
| DivisionByZero
| OutOfBounds
| SyclException (cl_code : Z) (cpp_code : cpp_error_code) (msg : string).

Inductive result (A : Type) : Type :=
| Ok (a : A)
| Fail (f : failure).

Arguments Ok {A} a.
Arguments Fail {A} f.

Definition rbind {A B : Type} (r : result A) (k : A -> result B) : result B :=
  match r with
  | Ok a => k a
  | Fail f => Fail f
  end.

Declare Scope result_scope.
Delimit Scope result_scope with result.
Notation "x <- e ;; k" := (rbind e (fun x => k))
  (at level 61, e at next level, right associativity) : result_scope.
Notation "e ;;; k" := (rbind e (fun _ => k))
  (at level 61, right associativity) : result_scope.
Open Scope result_scope.

(** Modelled from the spec: the macro [COMPUTECPP_ASSERT] comes from
    SYCL/assert.h, which is not part of the sources.  It is taken as a
    checked assertion: the program goes on when the condition holds and
    stops with the message otherwise. *)
Definition COMPUTECPP_ASSERT (cond : bool) (msg : string) : result unit :=
  if cond then Ok tt else Fail (AssertionFailed msg).

(** Modelled from the spec: the macro [COMPUTECPP_CL_ERROR_CODE_MSG] is
    defined in a header that is not part of the sources.  It is taken as
    raising the ComputeCpp error it is given, with the OpenCL code and the
    message attached. *)
Definition COMPUTECPP_CL_ERROR_CODE_MSG {A : Type}
    (cl_code : Z) (cpp_code : cpp_error_code) (msg : string) : result A :=
  Fail (SyclException cl_code cpp_code msg).

(** Unsigned division and remainder; a zero divisor has no defined result. *)
Definition size_t_div (a b : Z) : result Z :=
  if b =? 0 then Fail DivisionByZero else Ok (a / b).

Definition size_t_rem (a b : Z) : result Z :=
  if b =? 0 then Fail DivisionByZero else Ok (a mod b).

(** ** detail::index_array *)

(** [size_t m_idx[3]] *)
Record index_array : Type := mk_index_array {
  m_idx0 : Z;
  m_idx1 : Z;
  m_idx2 : Z
}.

(** Reading [m_idx[dimension]] of the raw array; there is no element past
    the third. *)
Definition m_idx (a : index_array) (dimension : N) : option Z :=
  match dimension with
  | 0%N => Some (m_idx0 a)
  | 1%N => Some (m_idx1 a)
  | 2%N => Some (m_idx2 a)
  | _ => None
  end.

Definition m_idx_store (a : index_array) (dimension : N) (v : Z)
  : option index_array :=
  match dimension with
  | 0%N => Some (mk_index_array v (m_idx1 a) (m_idx2 a))
  | 1%N => Some (mk_index_array (m_idx0 a) v (m_idx2 a))
  | 2%N => Some (mk_index_array (m_idx0 a) (m_idx1 a) v)
  | _ => None
  end.

Definition raw_read (a : index_array) (dimension : N) : result Z :=
  match m_idx a dimension with
  | Some v => Ok v
  | None => Fail OutOfBounds
  end.

Definition raw_store (a : index_array) (dimension : N) (v : Z)
  : result index_array :=
  match m_idx_store a dimension v with
  | Some a' => Ok a'
  | None => Fail OutOfBounds
  end.

Module IndexArray.

(** [index_array::index_array(size_t x, size_t y, size_t z)] *)
Definition ctor (x y z : Z) : index_array := mk_index_array x y z.

(** [size_t index_array::operator[](unsigned int dimension) const] *)
Definition subscript (a : index_array) (dimension : N) : result Z :=
  COMPUTECPP_ASSERT (dimension <? 3)%N "Incorrect number of dimensions" ;;;
  raw_read a dimension.

(** [size_t& index_array::operator[](unsigned int dimension)], used as the
    target of an assignment. *)
Definition subscript_assign (a : index_array) (dimension : N) (v : Z)
  : result index_array :=
  COMPUTECPP_ASSERT (dimension <? 3)%N "Incorrect number of dimensions" ;;;
  raw_store a dimension v.

End IndexArray.

(** ** detail::index_array_base *)

Record index_array_base : Type := mk_index_array_base {
  base_m_idx : index_array
}.

Module IndexArrayBase.

(** [index_array_base::index_array_base(size_t x, size_t y, size_t z)]:
    three assignments through [index_array::operator[]] into the member,
    whose content before them is [init]. *)
Definition ctor_from (init : index_array) (x y z : Z)
  : result index_array_base :=
  a <- IndexArray.subscript_assign init 0 x ;;
  a <- IndexArray.subscript_assign a 1 y ;;
  a <- IndexArray.subscript_assign a 2 z ;;
  Ok (mk_index_array_base a).

(** The member is default-initialised; all three of its elements are
    overwritten (see [ctor_from_any]), so the embedding starts from zeros. *)
Definition ctor (x y z : Z) : result index_array_base :=
  ctor_from (mk_index_array 0 0 0) x y z.

(** [index_array_base(const index_array& rhs) : m_idx(rhs)] *)
Definition of_index_array (rhs : index_array) : index_array_base :=
  mk_index_array_base rhs.

(** [operator index_array() const] *)
Definition to_index_array (a : index_array_base) : index_array :=
  base_m_idx a.

(** [size_t index_array_base::operator[](unsigned int dimension) const] *)
Definition subscript (a : index_array_base) (dimension : N) : result Z :=
  COMPUTECPP_ASSERT (dimension <? 3)%N "Incorrect number of dimensions" ;;;
  IndexArray.subscript (base_m_idx a) dimension.

(** [size_t& index_array_base::operator[](unsigned int dimension)] *)
Definition subscript_assign (a : index_array_base) (dimension : N) (v : Z)
  : result index_array_base :=
  COMPUTECPP_ASSERT (dimension <? 3)%N "Incorrect number of dimensions" ;;;
  m <- IndexArray.subscript_assign (base_m_idx a) dimension v ;;
  Ok (mk_index_array_base m).

End IndexArrayBase.

(** ** detail::index_array_operators, range and id *)

(** The template parameter [int dimensions]; the static assertion of the
    class allows 1, 2 and 3 only. *)
Inductive dimensions : Type := D1 | D2 | D3.

Definition dim_value (d : dimensions) : Z :=
  match d with D1 => 1 | D2 => 2 | D3 => 3 end.

Definition dim_N (d : dimensions) : N :=
  match d with D1 => 1%N | D2 => 2%N | D3 => 3%N end.

(** The template template parameter [Child]: [cl::sycl::range] or
    [cl::sycl::id]. *)
Inductive Child : Type := range_child | id_child.

Record index_array_operators (dims : dimensions) (C : Child) : Type :=
  mk_index_array_operators { as_base : index_array_base }.

Arguments mk_index_array_operators {dims C} _.
Arguments as_base {dims C} _.

Definition range (d : dimensions) : Type := index_array_operators d range_child.
Definition sycl_id (d : dimensions) : Type := index_array_operators d id_child.

Module IndexArrayOperators.

(** [index_array_operators(size_t a, size_t b, size_t c)] *)
Definition ctor {dims C} (a b c : Z) : result (index_array_operators dims C) :=
  base <- IndexArrayBase.ctor a b c ;;
  Ok (mk_index_array_operators base).

(** The same constructor, run on an object whose member [m_idx] holds
    [init] when the body of the base constructor starts: C++ leaves the
    member without a value of its own. *)
Definition ctor_from {dims C} (init : index_array) (a b c : Z)
  : result (index_array_operators dims C) :=
  base <- IndexArrayBase.ctor_from init a b c ;;
  Ok (mk_index_array_operators base).

(** [explicit index_array_operators(const index_array& rhs)] *)
Definition of_index_array {dims C} (rhs : index_array)
  : index_array_operators dims C :=
  mk_index_array_operators (IndexArrayBase.of_index_array rhs).

Definition to_index_array {dims C} (a : index_array_operators dims C)
  : index_array :=
  IndexArrayBase.to_index_array (as_base a).

(** The inherited [operator[]] of [index_array_base]. *)
Definition subscript {dims C} (a : index_array_operators dims C)
    (dimension : N) : result Z :=
  IndexArrayBase.subscript (as_base a) dimension.

Definition subscript_assign {dims C} (a : index_array_operators dims C)
    (dimension : N) (v : Z) : result (index_array_operators dims C) :=
  base <- IndexArrayBase.subscript_assign (as_base a) dimension v ;;
  Ok (mk_index_array_operators base).

(** The protected member [m_idx] of the base, read with
    [index_array::operator[]]. *)
Definition member_subscript {dims C} (a : index_array_operators dims C)
    (dimension : N) : result Z :=
  IndexArray.subscript (base_m_idx (as_base a)) dimension.

(** [index_array::is_equal<dimensions>] *)
Definition is_equal (d : dimensions) (a rhs : index_array) : bool :=
  let isEqual := (m_idx0 a =? m_idx0 rhs) in
  if 1 <? dim_value d then
    let isEqual := isEqual && (m_idx1 a =? m_idx1 rhs) in
    if 2 <? dim_value d then isEqual && (m_idx2 a =? m_idx2 rhs)
    else isEqual
  else isEqual.

(** [operator==] of [index_array_operators] *)
Definition eqb {dims C} (lhs rhs : index_array_operators dims C) : bool :=
  is_equal dims (to_index_array lhs) (to_index_array rhs).

End IndexArrayOperators.

Module Range.

(** [range<1>(size_t dim1)] *)
Definition ctor1 (dim1 : Z) : result (range D1) :=
  IndexArrayOperators.ctor dim1 1 1.

(** [range<2>(size_t dim1, size_t dim2)] *)
Definition ctor2 (dim1 dim2 : Z) : result (range D2) :=
  IndexArrayOperators.ctor dim1 dim2 1.

(** [range<3>(size_t dim1, size_t dim2, size_t dim3)] *)
Definition ctor3 (dim1 dim2 dim3 : Z) : result (range D3) :=
  IndexArrayOperators.ctor dim1 dim2 dim3.

(** [range<d>()], the same initialiser list in the three specialisations. *)
Definition default (d : dimensions) : result (range d) :=
  IndexArrayOperators.ctor 1 1 1.

(** [range<d>(const detail::index_array& indexArray)] *)
Definition of_index_array (d : dimensions) (indexArray : index_array)
  : result (range d) :=
  match d with
  | D1 =>
      x <- IndexArray.subscript indexArray 0 ;;
      ctor1 x
  | D2 =>
      x <- IndexArray.subscript indexArray 0 ;;
      y <- IndexArray.subscript indexArray 1 ;;
      ctor2 x y
  | D3 =>
      x <- IndexArray.subscript indexArray 0 ;;
      y <- IndexArray.subscript indexArray 1 ;;
      z <- IndexArray.subscript indexArray 2 ;;
      ctor3 x y z
  end.

(** [size_t range<d>::size() const] *)
Definition size (d : dimensions) (r : range d) : result Z :=
  match d with
  | D1 => IndexArrayOperators.member_subscript r 0
  | D2 =>
      a <- IndexArrayOperators.member_subscript r 0 ;;
      b <- IndexArrayOperators.member_subscript r 1 ;;
      Ok (SizeT.mul a b)
  | D3 =>
      a <- IndexArrayOperators.member_subscript r 0 ;;
      b <- IndexArrayOperators.member_subscript r 1 ;;
      c <- IndexArrayOperators.member_subscript r 2 ;;
      Ok (SizeT.mul (SizeT.mul a b) c)
  end.

End Range.

Module Id.

(** [id<1>(size_t x)] *)
Definition ctor1 (x : Z) : result (sycl_id D1) :=
  IndexArrayOperators.ctor x 0 0.

(** [id<2>(size_t x, size_t y)] *)
Definition ctor2 (x y : Z) : result (sycl_id D2) :=
  IndexArrayOperators.ctor x y 0.

(** [id<3>(size_t x, size_t y, size_t z)] *)
Definition ctor3 (x y z : Z) : result (sycl_id D3) :=
  IndexArrayOperators.ctor x y z.

(** [id<d>()], the same initialiser list in the three specialisations. *)
Definition default (d : dimensions) : result (sycl_id d) :=
  IndexArrayOperators.ctor 0 0 0.

(** [id<d>()] run on an object whose member [m_idx] holds [init] before
    the constructor stores into it. *)
Definition default_from (init : index_array) (d : dimensions)
  : result (sycl_id d) :=
  IndexArrayOperators.ctor_from init 0 0 0.

(** [id<d>(const detail::index_array& indexArray)] *)
Definition of_index_array (d : dimensions) (indexArray : index_array)
  : result (sycl_id d) :=
  match d with
  | D1 =>
      x <- IndexArray.subscript indexArray 0 ;;
      ctor1 x
  | D2 =>
      x <- IndexArray.subscript indexArray 0 ;;
      y <- IndexArray.subscript indexArray 1 ;;
      ctor2 x y
  | D3 =>
      x <- IndexArray.subscript indexArray 0 ;;
      y <- IndexArray.subscript indexArray 1 ;;
      z <- IndexArray.subscript indexArray 2 ;;
      ctor3 x y z
  end.

End Id.

(** The default constructor of [Child<dims>]. *)
Definition default_ctor (dims : dimensions) (C : Child)
  : result (index_array_operators dims C) :=
  match C with
  | range_child => Range.default dims
  | id_child => Id.default dims
  end.

(** ** Operators of index_array_operators.h *)

(** [detail::index_array_ops_results<dim, C1, C2>::ResTy]: the same class
    for two operands of one class, [id] when an [id] meets a [range]. *)
Definition index_array_ops_results (C1 C2 : Child) : Child :=
  match C1, C2 with
  | range_child, range_child => range_child
  | _, _ => id_child
  end.

Section Macros.

Import IndexArrayOperators.

Context {dimensions_ : dimensions}.

(** [COMPUTECPP_IDX_IDX_OPERATOR(op, a, b)] *)
Definition COMPUTECPP_IDX_IDX_OPERATOR {C1 C2 : Child}
    (op : Z -> Z -> result Z)
    (a : index_array_operators dimensions_ C1)
    (b : index_array_operators dimensions_ C2)
  : result (index_array_operators dimensions_ (index_array_ops_results C1 C2)) :=
  result <- default_ctor dimensions_ (index_array_ops_results C1 C2) ;;
  a0 <- subscript a 0 ;;
  b0 <- subscript b 0 ;;
  v0 <- op a0 b0 ;;
  result <- subscript_assign result 0 v0 ;;
  result <-
    (if 1 <? dim_value dimensions_ then
       a1 <- subscript a 1 ;;
       b1 <- subscript b 1 ;;
       v1 <- op a1 b1 ;;
       subscript_assign result 1 v1
     else Ok result) ;;
  result <-
    (if 2 <? dim_value dimensions_ then
       a2 <- subscript a 2 ;;
       b2 <- subscript b 2 ;;
       v2 <- op a2 b2 ;;
       subscript_assign result 2 v2
     else Ok result) ;;
  Ok result.

(** [COMPUTECPP_IDX_COMPARISON_OPERATOR(op, a, b)] for two operands of one
    class, where [ResTy] and the declared return type
    [index_array_operators<dimensions, C1>::Concrete] are the same
    [Child<dimensions>].  The value of the comparison is a [bool], stored
    into a [size_t] element. *)
Definition COMPUTECPP_IDX_COMPARISON_OPERATOR {C : Child}
    (op : Z -> Z -> bool)
    (a b : index_array_operators dimensions_ C)
  : result (index_array_operators dimensions_ C) :=
  result <- default_ctor dimensions_ C ;;
  a0 <- subscript a 0 ;;
  b0 <- subscript b 0 ;;
  result <- subscript_assign result 0 (SizeT.of_bool (op a0 b0)) ;;
  result <-
    (if 1 <? dim_value dimensions_ then
       a1 <- subscript a 1 ;;
       b1 <- subscript b 1 ;;
       subscript_assign result 1 (SizeT.of_bool (op a1 b1))
     else Ok result) ;;
  result <-
    (if 2 <? dim_value dimensions_ then
       a2 <- subscript a 2 ;;
       b2 <- subscript b 2 ;;
       subscript_assign result 2 (SizeT.of_bool (op a2 b2))
     else Ok result) ;;
  Ok result.

End Macros.

(** The four relational operators. *)
Inductive relational : Type := op_lt | op_gt | op_le | op_ge.

Definition relational_eval (op : relational) (x y : Z) : bool :=
  match op with
  | op_lt => x <? y
  | op_gt => x >? y
  | op_le => x <=? y
  | op_ge => x >=? y
  end.

(** [operator<], [operator>], [operator<=], [operator>=] *)
Definition operator_relational {d : dimensions} {C : Child} (op : relational)
    (a b : index_array_operators d C) : result (index_array_operators d C) :=
  COMPUTECPP_IDX_COMPARISON_OPERATOR (relational_eval op) a b.

(** [operator+] *)
Definition operator_add {d : dimensions} {C1 C2 : Child}
    (a : index_array_operators d C1) (b : index_array_operators d C2)
  : result (index_array_operators d (index_array_ops_results C1 C2)) :=
  COMPUTECPP_IDX_IDX_OPERATOR (fun x y => Ok (SizeT.add x y)) a b.

(** [operator*] *)
Definition operator_mul {d : dimensions} {C1 C2 : Child}
    (a : index_array_operators d C1) (b : index_array_operators d C2)
  : result (index_array_operators d (index_array_ops_results C1 C2)) :=
  COMPUTECPP_IDX_IDX_OPERATOR (fun x y => Ok (SizeT.mul x y)) a b.

(** ** info_convert<size_t*, range<3>> *)

(** [clPtr] is the array behind the pointer, read by index. *)
Definition cl_to_sycl (clPtr : Z -> Z) (numElems : Z) (clParam : Z)
  : result (range D3) :=
  (if negb (numElems =? 3) then
     COMPUTECPP_CL_ERROR_CODE_MSG CL_SUCCESS TARGET_FORMAT_ERROR
       "Unable to convert size_t[X] to range<3> because X != 3"
   else Ok tt) ;;;
  Range.ctor3 (clPtr 0) (clPtr 1) (clPtr 2).

(** ** Loops over a [size_t] counter *)

(** [for (size_t i = start; ...; i++)] run [count] times.  The counter of
    a loop [for (size_t i = 0; i < bound; i++)] stays below [bound], so the
    increment never wraps. *)
Fixpoint for_upto {St : Type} (count : nat) (i : Z)
    (body : Z -> St -> result St) (s : St) : result St :=
  match count with
  | O => Ok s
  | S count' =>
      s' <- body i s ;;
      for_upto count' (i + 1) body s'
  end.

(** [for (size_t i = 0; i < bound; i++) body] *)
Definition for_size_t {St : Type} (bound : Z)
    (body : Z -> St -> result St) (s : St) : result St :=
  for_upto (Z.to_nat bound) 0 body s.

(** The values the counter takes, in order. *)
Definition counter_values (bound : Z) : list Z :=
  map Z.of_nat (seq 0 (Z.to_nat bound)).

(** ** detail::group_base, detail::item_base, detail::h_item_base *)

(** Modelled from the spec: the class [detail::group_base] is declared in
    SYCL/group_base.h, which is not part of the sources.  Its data members
    are the four that group.h reads, each taken as a [detail::index_array],
    the type from which group.h builds the [range] and [id] it returns. *)
Record group_base : Type := mk_group_base {
  m_groupID : index_array;
  m_groupRange : index_array;
  m_globalRange : index_array;
  m_localRange : index_array
}.

(** Modelled from the spec: the class [detail::item_base] is declared in
    SYCL/item_base.h, which is not part of the sources.  It is taken as the
    pair of the id and the range it is constructed from. *)
Record item_base : Type := mk_item_base {
  item_id : index_array;
  item_range : index_array
}.

(** Modelled from the spec: the class [detail::h_item_base] is not part of
    the sources.  It is taken as the triple of the logical local, physical
    local and global items it is constructed from. *)
Record h_item_base : Type := mk_h_item_base {
  logical_local_item : item_base;
  physical_local_item : item_base;
  global_item : item_base
}.

Module GroupBase.

(** Modelled from the spec: the constructor of [detail::group_base] is
    declared in SYCL/group_base.h, which is not part of the sources.  It is
    taken to initialise the four members that group.h reads from its four
    arguments, in the order in which [group::group] passes them: the group
    id, the group range, the global range and, for the one member that is
    left, the local range. *)
Definition ctor (groupID groupRange globalRange localRange : index_array)
  : group_base :=
  mk_group_base groupID groupRange globalRange localRange.

End GroupBase.

Module Group.

Import IndexArrayOperators.

(** [group(id<dimensions> groupID, id<dimensions> groupRange,
          range<dimensions> globalRange)] *)
Definition ctor {d : dimensions} (groupID groupRange : sycl_id d)
    (globalRange : range d) : result group_base :=
  g0 <- subscript globalRange 0 ;;
  r0 <- subscript groupRange 0 ;;
  q0 <- size_t_div g0 r0 ;;
  g1 <- subscript globalRange 1 ;;
  r1 <- subscript groupRange 1 ;;
  q1 <- size_t_div g1 r1 ;;
  g2 <- subscript globalRange 2 ;;
  r2 <- subscript groupRange 2 ;;
  q2 <- size_t_div g2 r2 ;;
  Ok (GroupBase.ctor (to_index_array groupID) (to_index_array groupRange)
        (to_index_array globalRange) (IndexArray.ctor q0 q1 q2)).

(** [id<dimensions> get_id() const { return m_groupID; }] *)
Definition get_id (d : dimensions) (g : group_base) : result (sycl_id d) :=
  Id.of_index_array d (m_groupID g).

(** [range<dimensions> get_global_range() const] *)
Definition get_global_range (d : dimensions) (g : group_base)
  : result (range d) :=
  Range.of_index_array d (m_globalRange g).

(** [range<dimensions> get_local_range() const] *)
Definition get_local_range (d : dimensions) (g : group_base)
  : result (range d) :=
  Range.of_index_array d (m_localRange g).

(** [bool is_zero_id() const] *)
Definition is_zero_id (d : dimensions) (g : group_base) : result bool :=
  id <- get_id d g ;;
  i0 <- subscript id 0 ;;
  if i0 =? 0 then
    i1 <- subscript id 1 ;;
    if i1 =? 0 then
      i2 <- subscript id 2 ;;
      Ok (i2 =? 0)
    else Ok false
  else Ok false.

(** *** parallel_for_work_item (host) *)

(** The state of the loop nest: the local variable [physicalLocalID] and
    the items [func] has been called with so far, oldest first. *)
Record loop_state (d : dimensions) : Type := mk_loop_state {
  physicalLocalID : sycl_id d;
  calls : list h_item_base
}.

Arguments mk_loop_state {d} _ _.
Arguments physicalLocalID {d} _.
Arguments calls {d} _.

Section ParallelForWorkItem.

Variable d : dimensions.
Variable flexibleRange : range d.
Variables globalRange physicalLocalRange : range d.
Variable globalIdBase : sycl_id d.

(** The body of the innermost loop. *)
Definition body_x (itemY itemZ itemX : Z) (s : loop_state d)
  : result (loop_state d) :=
  l0 <- subscript physicalLocalRange 0 ;;
  p0 <- size_t_rem itemX l0 ;;
  pl <- subscript_assign (physicalLocalID s) 0 p0 ;;
  localID <- Id.of_index_array d (IndexArray.ctor itemX itemY itemZ) ;;
  globalID <- operator_add globalIdBase pl ;;
  let currentItem :=
    mk_h_item_base
      (mk_item_base (to_index_array localID) (to_index_array flexibleRange))
      (mk_item_base (to_index_array pl) (to_index_array physicalLocalRange))
      (mk_item_base (to_index_array globalID) (to_index_array globalRange)) in
  Ok (mk_loop_state pl (calls s ++ [currentItem])).

Definition body_y (itemZ itemY : Z) (s : loop_state d)
  : result (loop_state d) :=
  l1 <- subscript physicalLocalRange 1 ;;
  p1 <- size_t_rem itemY l1 ;;
  pl <- subscript_assign (physicalLocalID s) 1 p1 ;;
  f0 <- subscript flexibleRange 0 ;;
  for_size_t f0 (body_x itemY itemZ) (mk_loop_state pl (calls s)).

Definition body_z (itemZ : Z) (s : loop_state d) : result (loop_state d) :=
  l2 <- subscript physicalLocalRange 2 ;;
  p2 <- size_t_rem itemZ l2 ;;
  pl <- subscript_assign (physicalLocalID s) 2 p2 ;;
  f1 <- subscript flexibleRange 1 ;;
  for_size_t f1 (body_y itemZ) (mk_loop_state pl (calls s)).

End ParallelForWorkItem.

(** [parallel_for_work_item(range<dimensions> flexibleRange, func)] without
    [__SYCL_DEVICE_ONLY__]; the result is the sequence of items [func] is
    called with.  The loop bounds [flexibleRange[i]] do not change while the
    loops run and are read once. *)
Definition parallel_for_work_item (d : dimensions) (g : group_base)
    (flexibleRange : range d) : result (list h_item_base) :=
  globalRange <- get_global_range d g ;;
  physicalLocalRange <- get_local_range d g ;;
  groupID <- get_id d g ;;
  globalIdBase <- operator_mul physicalLocalRange groupID ;;
  physicalLocalID <- Id.default d ;;
  f2 <- subscript flexibleRange 2 ;;
  s <- for_size_t f2
         (body_z d flexibleRange globalRange physicalLocalRange globalIdBase)
         (mk_loop_state physicalLocalID []) ;;
  Ok (calls s).

(** [parallel_for_work_item(func)]: the logical range is the local range. *)
Definition parallel_for_work_item_local (d : dimensions) (g : group_base)
  : result (list h_item_base) :=
  r <- get_local_range d g ;;
  parallel_for_work_item d g r.

End Group.

(** ** async_work_group_copy *)

(** Whether the translation unit is compiled with [__SYCL_DEVICE_ONLY__]. *)
Inductive build : Type := host_build | device_build.

(** [multi_ptr<dataT, asp>]: the element index [m_elem] of the pointee in
    the memory the pointer refers to. *)
Record local_ptr : Type := mk_local_ptr { local_elem : Z }.
Record global_ptr : Type := mk_global_ptr { global_elem : Z }.

(** [multi_ptr::operator+(difference_type r)], with the [size_t] argument
    converted to [std::ptrdiff_t]. *)
Definition local_ptr_plus (p : local_ptr) (r : Z) : Z :=
  local_elem p + SizeT.to_ptrdiff r.

Definition global_ptr_plus (p : global_ptr) (r : Z) : Z :=
  global_elem p + SizeT.to_ptrdiff r.

(** Modelled from the spec: [detail::async_work_group_copy] and
    [detail::async_work_group_strided_copy] are hooks of the device
    compiler, declared in SYCL/compiler_hooks.h, which is not part of the
    sources.  A call to one of them is recorded with its arguments; what it
    does to memory belongs to the device compiler and OpenCL. *)
Inductive delegated_call : Type :=
| to_local_copy (dest : local_ptr) (src : global_ptr)
    (numElements previousEvent : Z)
| to_global_copy (dest : global_ptr) (src : local_ptr)
    (numElements previousEvent : Z)
| to_local_strided_copy (dest : local_ptr) (src : global_ptr)
    (numElements srcStride previousEvent : Z)
| to_global_strided_copy (dest : global_ptr) (src : local_ptr)
    (numElements destStride previousEvent : Z).

(** [device_event()], or [device_event(e)] for the event [e] a hook
    returned. *)
Inductive device_event : Type :=
| device_event_default
| device_event_of (call : delegated_call).

(** One element assignment [*to = *from] made by the library's own code. *)
Record element_move : Type := mk_element_move {
  move_to : Z;
  move_from : Z
}.

Section AsyncCopy.

Variable dataT : Type.

(** Host memory, the element moves the library has made itself and the
    calls it has handed to the device compiler's hooks, oldest first. *)
Record world : Type := mk_world {
  mem : Z -> dataT;
  moves : list element_move;
  delegated : list delegated_call
}.

Definition mem_store (m : Z -> dataT) (a : Z) (v : dataT) : Z -> dataT :=
  fun a' => if a' =? a then v else m a'.

(** [*to = *from] *)
Definition assign_element (to from : Z) (w : world) : world :=
  mk_world (mem_store (mem w) to (mem w from))
           (moves w ++ [mk_element_move to from])
           (delegated w).

Definition delegate (call : delegated_call) (w : world)
  : device_event * world :=
  (device_event_of call,
   mk_world (mem w) (moves w) (delegated w ++ [call])).

(** The state of a host copy loop: the running strided index and the
    world. *)
Definition copy_state : Type := (Z * world)%type.

Section Overloads.

Variable b : build.
Variable d : dimensions.
Variable g : group_base.

(** [async_work_group_copy(local_ptr dest, global_ptr src,
                           size_t numElements, size_t srcStride)] *)
Definition async_work_group_copy_to_local_strided
    (dest : local_ptr) (src : global_ptr) (numElements srcStride : Z)
    (w : world) : result (device_event * world) :=
  match b with
  | device_build =>
      let previousEvent := 0 in
      Ok (delegate
            (to_local_strided_copy dest src numElements srcStride
               previousEvent) w)
  | host_build =>
      z <- Group.is_zero_id d g ;;
      st <-
        (if z : bool then
           for_size_t numElements
             (fun i (st : copy_state) =>
                let (srcIter, w) := st in
                Ok (SizeT.add srcIter srcStride,
                    assign_element (local_ptr_plus dest i)
                      (global_ptr_plus src srcIter) w))
             (0, w)
         else Ok (0, w)) ;;
      Ok (device_event_default, snd st)
  end.

(** [async_work_group_copy(global_ptr dest, local_ptr src,
                           size_t numElements, size_t destStride)] *)
Definition async_work_group_copy_to_global_strided
    (dest : global_ptr) (src : local_ptr) (numElements destStride : Z)
    (w : world) : result (device_event * world) :=
  match b with
  | device_build =>
      let previousEvent := 0 in
      Ok (delegate
            (to_global_strided_copy dest src numElements destStride
               previousEvent) w)
  | host_build =>
      z <- Group.is_zero_id d g ;;
      st <-
        (if z : bool then
           for_size_t numElements
             (fun i (st : copy_state) =>
                let (dstIter, w) := st in
                Ok (SizeT.add dstIter destStride,
                    assign_element (global_ptr_plus dest dstIter)
                      (local_ptr_plus src i) w))
             (0, w)
         else Ok (0, w)) ;;
      Ok (device_event_default, snd st)
  end.

(** [async_work_group_copy(local_ptr dest, global_ptr src,
                           size_t numElements)] *)
Definition async_work_group_copy_to_local
    (dest : local_ptr) (src : global_ptr) (numElements : Z)
    (w : world) : result (device_event * world) :=
  match b with
  | device_build =>
      let previousEvent := 0 in
      Ok (delegate (to_local_copy dest src numElements previousEvent) w)
  | host_build =>
      let stride := 1 in
      async_work_group_copy_to_local_strided dest src numElements stride w
  end.

(** [async_work_group_copy(global_ptr dest, local_ptr src,
                           size_t numElements)] *)
Definition async_work_group_copy_to_global
    (dest : global_ptr) (src : local_ptr) (numElements : Z)
    (w : world) : result (device_event * world) :=
  match b with
  | device_build =>
      let previousEvent := 0 in
      Ok (delegate (to_global_copy dest src numElements previousEvent) w)
  | host_build =>
      let stride := 1 in
      async_work_group_copy_to_global_strided dest src numElements stride w
  end.

End Overloads.

(** A call to one of the four overloads. *)
Inductive copy_request : Type :=
| copy_to_local (dest : local_ptr) (src : global_ptr) (numElements : Z)
| copy_to_global (dest : global_ptr) (src : local_ptr) (numElements : Z)
| copy_to_local_strided (dest : local_ptr) (src : global_ptr)
    (numElements srcStride : Z)
| copy_to_global_strided (dest : global_ptr) (src : local_ptr)
    (numElements destStride : Z).

Definition async_work_group_copy (b : build) (d : dimensions)
    (g : group_base) (r : copy_request) (w : world)
  : result (device_event * world) :=
  match r with
  | copy_to_local dest src n =>
      async_work_group_copy_to_local b d g dest src n w
  | copy_to_global dest src n =>
      async_work_group_copy_to_global b d g dest src n w
  | copy_to_local_strided dest src n stride =>
      async_work_group_copy_to_local_strided b d g dest src n stride w
  | copy_to_global_strided dest src n stride =>
      async_work_group_copy_to_global_strided b d g dest src n stride w
  end.

End AsyncCopy.

Arguments mk_world {dataT} _ _ _.
Arguments mem {dataT} _ _.
Arguments moves {dataT} _.
Arguments delegated {dataT} _.
Arguments assign_element {dataT} _ _ _.
Arguments mem_store {dataT} _ _ _ _.
Arguments async_work_group_copy {dataT} _ _ _ _ _.

(** ** Vocabulary of the statements *)

(** The element of an index object in a dimension below three. *)
Definition element {dims C} (a : index_array_operators dims C) (i : N) : Z :=
  match m_idx (IndexArrayOperators.to_index_array a) i with
  | Some v => v
  | None => 0
  end.

(** The extents of a range, as stored. *)
Definition extent {d} (r : range d) (i : N) : Z := element r i.

(** The logical indices of a flexible range in the order of the loop nest:
    z outermost, x innermost. *)
Definition logical_indices (flexibleRange : index_array) : list (Z * Z * Z) :=
  flat_map
    (fun z =>
       flat_map
         (fun y => map (fun x => (x, y, z))
                       (counter_values (m_idx0 flexibleRange)))
         (counter_values (m_idx1 flexibleRange)))
    (counter_values (m_idx2 flexibleRange)).

(** What the specification says of the item [h] that [func] receives for the
    logical index [(x, y, z)]. *)
Definition item_for_index (d : dimensions) (g : group_base)
    (flexibleRange : range d) (index : Z * Z * Z) (h : h_item_base) : Prop :=
  let '(x, y, z) := index in
  exists (physicalLocalRange globalRange : range d)
         (groupID localID physicalLocalID globalIdBase globalID : sycl_id d),
    Group.get_local_range d g = Ok physicalLocalRange
    /\ Group.get_global_range d g = Ok globalRange
    /\ Group.get_id d g = Ok groupID
    /\ Id.of_index_array d (IndexArray.ctor x y z) = Ok localID
    /\ logical_local_item h
       = mk_item_base (IndexArrayOperators.to_index_array localID)
                      (IndexArrayOperators.to_index_array flexibleRange)
    /\ IndexArrayOperators.to_index_array physicalLocalID
       = mk_index_array (x mod element physicalLocalRange 0)
                        (y mod element physicalLocalRange 1)
                        (z mod element physicalLocalRange 2)
    /\ physical_local_item h
       = mk_item_base (IndexArrayOperators.to_index_array physicalLocalID)
                      (IndexArrayOperators.to_index_array physicalLocalRange)
    /\ operator_mul physicalLocalRange groupID = Ok globalIdBase
    /\ operator_add globalIdBase physicalLocalID = Ok globalID
    /\ global_item h
       = mk_item_base (IndexArrayOperators.to_index_array globalID)
                      (IndexArrayOperators.to_index_array globalRange)
    /\ (forall i : N, (i < 3)%N ->
          element globalID i
          = SizeT.add
              (SizeT.mul (element physicalLocalRange i) (element groupID i))
              (element physicalLocalID i)).

(** [func] is called once for each logical index, in the order of the loop
    nest, each time with the item of that index. *)
Definition calls_once_per_index (d : dimensions) (g : group_base)
    (flexibleRange : range d) : Prop :=
  exists items : list h_item_base,
    Group.parallel_for_work_item d g flexibleRange = Ok items
    /\ Forall2 (item_for_index d g flexibleRange)
         (logical_indices (IndexArrayOperators.to_index_array flexibleRange))
         items.

(** The first [d] elements of an index array, the others replaced by
    [fill]: what the constructors of [range<d>] ([fill] = 1) and [id<d>]
    ([fill] = 0) keep of an [index_array]. *)
Definition leading (d : dimensions) (fill : Z) (a : index_array)
  : index_array :=
  match d with
  | D1 => mk_index_array (m_idx0 a) fill fill
  | D2 => mk_index_array (m_idx0 a) (m_idx1 a) fill
  | D3 => a
  end.

Definition pointwise (op : Z -> Z -> Z) (a b : index_array) : index_array :=
  mk_index_array (op (m_idx0 a) (m_idx0 b))
                 (op (m_idx1 a) (m_idx1 b))
                 (op (m_idx2 a) (m_idx2 b)).

(** The item of the logical index [(x, y, z)], in closed form: [p1] and
    [p2] are the second and third element of [physicalLocalID] when the
    innermost loop body runs. *)
Definition work_item (d : dimensions)
    (flexibleRange globalRange physicalLocalRange globalIdBase : index_array)
    (p1 p2 : Z) (x y z : Z) : h_item_base :=
  let pl := mk_index_array (x mod m_idx0 physicalLocalRange) p1 p2 in
  mk_h_item_base
    (mk_item_base (leading d 0 (mk_index_array x y z)) flexibleRange)
    (mk_item_base pl physicalLocalRange)
    (mk_item_base (leading d 0 (pointwise SizeT.add globalIdBase pl))
                  globalRange).

(** The first [d] elements of the local range of a group are nonzero. *)
Definition local_range_nonzero (d : dimensions) (g : group_base) : Prop :=
  forall i : N, (i < dim_N d)%N -> m_idx (m_localRange g) i <> Some 0.

(** A group of one dimension whose local range is zero, and a logical range
    of one item. *)
Definition degenerate_group : group_base :=
  mk_group_base (mk_index_array 0 0 0) (mk_index_array 1 1 1)
                (mk_index_array 1 1 1) (mk_index_array 0 1 1).

Definition single_item_range : range D1 :=
  IndexArrayOperators.of_index_array (mk_index_array 1 1 1).

(** A group of two dimensions with a 2 by 2 local range, the second of 2 by
    1 groups over a 4 by 2 global range, and a 3 by 2 logical range. *)
Definition sample_group : group_base :=
  mk_group_base (mk_index_array 1 0 0) (mk_index_array 2 1 1)
                (mk_index_array 4 2 1) (mk_index_array 2 2 1).

Definition sample_flexible_range : range D2 :=
  IndexArrayOperators.of_index_array (mk_index_array 3 2 1).

(** Whether the first [d] elements of the group id are zero. *)
Definition group_id_is_zero (d : dimensions) (g : group_base) : bool :=
  match d with
  | D1 => m_idx0 (m_groupID g) =? 0
  | D2 => (m_idx0 (m_groupID g) =? 0) && (m_idx1 (m_groupID g) =? 0)
  | D3 => (m_idx0 (m_groupID g) =? 0) && (m_idx1 (m_groupID g) =? 0)
          && (m_idx2 (m_groupID g) =? 0)
  end.

(** The hook a device build calls for a request. *)
Definition hook_call (r : copy_request) : delegated_call :=
  match r with
  | copy_to_local dest src n => to_local_copy dest src n 0
  | copy_to_global dest src n => to_global_copy dest src n 0
  | copy_to_local_strided dest src n stride =>
      to_local_strided_copy dest src n stride 0
  | copy_to_global_strided dest src n stride =>
      to_global_strided_copy dest src n stride 0
  end.

(** The element moves a host build makes for a request when the group id is
    zero, in order: element [i] of the contiguous side goes with element
    [i * stride] (modulo 2^64) of the strided side. *)
Definition host_moves (r : copy_request) : list element_move :=
  match r with
  | copy_to_local dest src n =>
      map (fun i => mk_element_move (local_ptr_plus dest i)
                      (global_ptr_plus src (SizeT.wrap (i * 1))))
          (counter_values n)
  | copy_to_global dest src n =>
      map (fun i => mk_element_move
                      (global_ptr_plus dest (SizeT.wrap (i * 1)))
                      (local_ptr_plus src i))
          (counter_values n)
  | copy_to_local_strided dest src n stride =>
      map (fun i => mk_element_move (local_ptr_plus dest i)
                      (global_ptr_plus src (SizeT.wrap (i * stride))))
          (counter_values n)
  | copy_to_global_strided dest src n stride =>
      map (fun i => mk_element_move
                      (global_ptr_plus dest (SizeT.wrap (i * stride)))
                      (local_ptr_plus src i))
          (counter_values n)
  end.

Definition apply_moves {dataT : Type} (l : list element_move)
    (w : world dataT) : world dataT :=
  fold_left (fun w m => assign_element (move_to m) (move_from m) w) l w.

(** The library hands the transfer to a hook and moves no element itself. *)
Definition transfer_is_delegated {dataT : Type} (b : build) (d : dimensions)
    (g : group_base) (r : copy_request) (w : world dataT) : Prop :=
  exists ev w',
    async_work_group_copy b d g r w = Ok (ev, w')
    /\ moves w' = moves w
    /\ (forall a, mem w' a = mem w a)
    /\ exists call, delegated w' = delegated w ++ [call].

(** A group of one dimension with id zero, and a memory that holds at each
    address the address itself. *)
Definition first_group : group_base :=
  mk_group_base (mk_index_array 0 0 0) (mk_index_array 2 1 1)
                (mk_index_array 8 1 1) (mk_index_array 4 1 1).

Definition identity_world : world Z := mk_world (fun a => a) [] [].






(** * The rest of the index operators *)

(** Unsigned subtraction in [size_t]. *)
Definition size_t_sub (a b : Z) : Z := SizeT.wrap (a - b).

(** The arithmetic and bitwise operators whose result is defined for all
    operands: [+], [-], [*], [&], [|], [^]. *)
Inductive arithmetic : Type :=
| op_add | op_sub | op_mul | op_band | op_bor | op_bxor.

Definition arithmetic_eval (op : arithmetic) (x y : Z) : Z :=
  match op with
  | op_add => SizeT.add x y
  | op_sub => size_t_sub x y
  | op_mul => SizeT.mul x y
  | op_band => Z.land x y
  | op_bor => Z.lor x y
  | op_bxor => Z.lxor x y
  end.

(** [operator+], [operator-], [operator*], [operator&], [operator|],
    [operator^] of two index objects. *)
Definition operator_arithmetic {d : dimensions} {C1 C2 : Child}
    (op : arithmetic)
    (a : index_array_operators d C1) (b : index_array_operators d C2)
  : result (index_array_operators d (index_array_ops_results C1 C2)) :=
  COMPUTECPP_IDX_IDX_OPERATOR (fun x y => Ok (arithmetic_eval op x y)) a b.

(** [operator/] and [operator%] of two index objects. *)
Definition operator_div {d : dimensions} {C1 C2 : Child}
    (a : index_array_operators d C1) (b : index_array_operators d C2)
  : result (index_array_operators d (index_array_ops_results C1 C2)) :=
  COMPUTECPP_IDX_IDX_OPERATOR size_t_div a b.

Definition operator_rem {d : dimensions} {C1 C2 : Child}
    (a : index_array_operators d C1) (b : index_array_operators d C2)
  : result (index_array_operators d (index_array_ops_results C1 C2)) :=
  COMPUTECPP_IDX_IDX_OPERATOR size_t_rem a b.

Section ScalarMacros.

Import IndexArrayOperators.

Context {dimensions_ : dimensions} {Child_ : Child}.

(** [COMPUTECPP_IDX_SCALAR_OPERATOR(op, a, b)]: [Concrete] is
    [Child<dimensions>]. *)
Definition COMPUTECPP_IDX_SCALAR_OPERATOR (op : Z -> Z -> result Z)
    (a : index_array_operators dimensions_ Child_) (b : Z)
  : result (index_array_operators dimensions_ Child_) :=
  result <- default_ctor dimensions_ Child_ ;;
  a0 <- subscript a 0 ;;
  v0 <- op a0 b ;;
  result <- subscript_assign result 0 v0 ;;
  result <-
    (if 1 <? dim_value dimensions_ then
       a1 <- subscript a 1 ;;
       v1 <- op a1 b ;;
       subscript_assign result 1 v1
     else Ok result) ;;
  result <-
    (if 2 <? dim_value dimensions_ then
       a2 <- subscript a 2 ;;
       v2 <- op a2 b ;;
       subscript_assign result 2 v2
     else Ok result) ;;
  Ok result.

(** [COMPUTECPP_SCALAR_IDX_OPERATOR(op, a, b)] *)
Definition COMPUTECPP_SCALAR_IDX_OPERATOR (op : Z -> Z -> result Z)
    (a : Z) (b : index_array_operators dimensions_ Child_)
  : result (index_array_operators dimensions_ Child_) :=
  result <- default_ctor dimensions_ Child_ ;;
  b0 <- subscript b 0 ;;
  v0 <- op a b0 ;;
  result <- subscript_assign result 0 v0 ;;
  result <-
    (if 1 <? dim_value dimensions_ then
       b1 <- subscript b 1 ;;
       v1 <- op a b1 ;;
       subscript_assign result 1 v1
     else Ok result) ;;
  result <-
    (if 2 <? dim_value dimensions_ then
       b2 <- subscript b 2 ;;
       v2 <- op a b2 ;;
       subscript_assign result 2 v2
     else Ok result) ;;
  Ok result.

(** The protected member [m_idx] of the base, written through
    [index_array::operator[]]. *)
Definition member_subscript_assign
    (a : index_array_operators dimensions_ Child_) (dimension : N) (v : Z)
  : result (index_array_operators dimensions_ Child_) :=
  m <- IndexArray.subscript_assign (base_m_idx (as_base a)) dimension v ;;
  Ok (mk_index_array_operators (mk_index_array_base m)).

(** [COMPUTECPP_IDX_ASSIGNMENT_OPERATOR(op)], a member function: [op] is
    [=] or a compound assignment, given here by the value it stores from the
    old value of the left element and the right element.  The object after
    the call is the result. *)
Definition COMPUTECPP_IDX_ASSIGNMENT_OPERATOR (op : Z -> Z -> result Z)
    (this rhs : index_array_operators dimensions_ Child_)
  : result (index_array_operators dimensions_ Child_) :=
  l0 <- member_subscript this 0 ;;
  r0 <- member_subscript rhs 0 ;;
  v0 <- op l0 r0 ;;
  this <- member_subscript_assign this 0 v0 ;;
  this <-
    (if 1 <? dim_value dimensions_ then
       l1 <- member_subscript this 1 ;;
       r1 <- member_subscript rhs 1 ;;
       v1 <- op l1 r1 ;;
       member_subscript_assign this 1 v1
     else Ok this) ;;
  this <-
    (if 2 <? dim_value dimensions_ then
       l2 <- member_subscript this 2 ;;
       r2 <- member_subscript rhs 2 ;;
       v2 <- op l2 r2 ;;
       member_subscript_assign this 2 v2
     else Ok this) ;;
  Ok this.

(** [COMPUTECPP_IDX_SCALAR_ASSIGNMENT_OPERATOR(op)]: the macro is used with
    a compound assignment for [op], so each line reads
    [m_idx[i] = m_idx[i] op= rhs]: the compound assignment stores, and its
    value is stored once more. *)
Definition COMPUTECPP_IDX_SCALAR_ASSIGNMENT_OPERATOR
    (op : Z -> Z -> result Z)
    (this : index_array_operators dimensions_ Child_) (rhs : Z)
  : result (index_array_operators dimensions_ Child_) :=
  l0 <- member_subscript this 0 ;;
  v0 <- op l0 rhs ;;
  this <- member_subscript_assign this 0 v0 ;;
  this <- member_subscript_assign this 0 v0 ;;
  this <-
    (if 1 <? dim_value dimensions_ then
       l1 <- member_subscript this 1 ;;
       v1 <- op l1 rhs ;;
       this <- member_subscript_assign this 1 v1 ;;
       member_subscript_assign this 1 v1
     else Ok this) ;;
  this <-
    (if 2 <? dim_value dimensions_ then
       l2 <- member_subscript this 2 ;;
       v2 <- op l2 rhs ;;
       this <- member_subscript_assign this 2 v2 ;;
       member_subscript_assign this 2 v2
     else Ok this) ;;
  Ok this.

End ScalarMacros.

(** Of the operators of [arithmetic], the header defines five between an
    index object and a [size_t]: [+], [-], [*], [|] and [^].  There is no
    [operator&] with a [size_t]. *)
Inductive scalar_arithmetic : Type :=
| sop_add | sop_sub | sop_mul | sop_bor | sop_bxor.

Definition scalar_arithmetic_eval (op : scalar_arithmetic) (x y : Z) : Z :=
  match op with
  | sop_add => SizeT.add x y
  | sop_sub => size_t_sub x y
  | sop_mul => SizeT.mul x y
  | sop_bor => Z.lor x y
  | sop_bxor => Z.lxor x y
  end.

(** [operator op (a, size_t b)] for [+], [-], [*], [|], [^]. *)
Definition operator_arithmetic_scalar {d : dimensions} {C : Child}
    (op : scalar_arithmetic) (a : index_array_operators d C) (b : Z)
  : result (index_array_operators d C) :=
  COMPUTECPP_IDX_SCALAR_OPERATOR
    (fun x y => Ok (scalar_arithmetic_eval op x y)) a b.

(** [operator op (size_t a, b)] for [+], [-], [*], [|], [^]. *)
Definition operator_scalar_arithmetic {d : dimensions} {C : Child}
    (op : scalar_arithmetic) (a : Z) (b : index_array_operators d C)
  : result (index_array_operators d C) :=
  COMPUTECPP_SCALAR_IDX_OPERATOR
    (fun x y => Ok (scalar_arithmetic_eval op x y)) a b.

(** [operator=] of [index_array_operators]. *)
Definition operator_assign {d : dimensions} {C : Child}
    (this rhs : index_array_operators d C)
  : result (index_array_operators d C) :=
  COMPUTECPP_IDX_ASSIGNMENT_OPERATOR (fun _ r => Ok r) this rhs.

(** [operator+=], [operator-=], [operator*=], [operator&=], [operator|=],
    [operator^=] with an index object on the right. *)
Definition operator_compound {d : dimensions} {C : Child} (op : arithmetic)
    (this rhs : index_array_operators d C)
  : result (index_array_operators d C) :=
  COMPUTECPP_IDX_ASSIGNMENT_OPERATOR
    (fun l r => Ok (arithmetic_eval op l r)) this rhs.

(** [operator+=], [operator-=], [operator*=], [operator&=], [operator|=],
    [operator^=] with a [size_t] on the right. *)
Definition operator_compound_scalar {d : dimensions} {C : Child}
    (op : arithmetic) (this : index_array_operators d C) (rhs : Z)
  : result (index_array_operators d C) :=
  COMPUTECPP_IDX_SCALAR_ASSIGNMENT_OPERATOR
    (fun l r => Ok (arithmetic_eval op l r)) this rhs.

(** The value a default-constructed [Child<d>] holds in every element. *)
Definition default_fill (C : Child) : Z :=
  match C with range_child => 1 | id_child => 0 end.

(** Whether a value fits [size_t]. *)
Definition is_size_t (z : Z) : Prop := 0 <= z < SizeT.modulus.

(** Whether one of the first [d] elements of an index array is zero. *)
Definition has_zero_element (d : dimensions) (a : index_array) : Prop :=
  match d with
  | D1 => m_idx0 a = 0
  | D2 => m_idx0 a = 0 \/ m_idx1 a = 0
  | D3 => m_idx0 a = 0 \/ m_idx1 a = 0 \/ m_idx2 a = 0
  end.

(** The first [d] elements of [new] over the remaining elements of [old]. *)
Definition overlay (d : dimensions) (new old : index_array) : index_array :=
  match d with
  | D1 => mk_index_array (m_idx0 new) (m_idx1 old) (m_idx2 old)
  | D2 => mk_index_array (m_idx0 new) (m_idx1 new) (m_idx2 old)
  | D3 => new
  end.

(** The operators with a [size_t] for which the order of the operands does
    not matter. *)
Definition commutative_operator (op : scalar_arithmetic) : bool :=
  match op with
  | sop_sub => false
  | _ => true
  end.

(** The compound assignment that goes with an operator between an index
    object and a [size_t]: [+=] with [+], and so on. *)
Definition compound_of_scalar (op : scalar_arithmetic) : arithmetic :=
  match op with
  | sop_add => op_add
  | sop_sub => op_sub
  | sop_mul => op_mul
  | sop_bor => op_bor
  | sop_bxor => op_bxor
  end.

(** * The rest of index_array.h, id.h and group.h *)

(** [index_array::get_count_impl] *)
Definition get_count_impl (a : index_array) : Z :=
  SizeT.mul (SizeT.mul (m_idx0 a) (m_idx1 a)) (m_idx2 a).

(** [id<d>(const range<d>& r)] *)
Definition id_of_range (d : dimensions) (r : range d) : result (sycl_id d) :=
  match d with
  | D1 =>
      x <- IndexArrayOperators.subscript r 0 ;;
      Id.ctor1 x
  | D2 =>
      x <- IndexArrayOperators.subscript r 0 ;;
      y <- IndexArrayOperators.subscript r 1 ;;
      Id.ctor2 x y
  | D3 =>
      x <- IndexArrayOperators.subscript r 0 ;;
      y <- IndexArrayOperators.subscript r 1 ;;
      z <- IndexArrayOperators.subscript r 2 ;;
      Id.ctor3 x y z
  end.

(** Conversion of a [size_t] to [unsigned int]. *)
Definition to_unsigned_int (n : N) : N := (n mod 2 ^ 32)%N.

Module GroupAccessors.

Import IndexArrayOperators.

(** [range<dimensions> get_group_range() const] *)
Definition get_group_range (d : dimensions) (g : group_base)
  : result (range d) :=
  Range.of_index_array d (m_groupRange g).

(** [size_t get_id(unsigned int dimension) const] *)
Definition get_id_at (d : dimensions) (g : group_base) (dimension : N)
  : result Z :=
  id <- Group.get_id d g ;;
  subscript id dimension.

(** [size_t get_global_range(unsigned int dimension) const] *)
Definition get_global_range_at (d : dimensions) (g : group_base)
    (dimension : N) : result Z :=
  r <- Group.get_global_range d g ;;
  subscript r dimension.

(** [size_t get_local_range(unsigned int dimension) const] *)
Definition get_local_range_at (d : dimensions) (g : group_base)
    (dimension : N) : result Z :=
  r <- Group.get_local_range d g ;;
  subscript r dimension.

(** [size_t get_group_range(unsigned int dimension) const] *)
Definition get_group_range_at (d : dimensions) (g : group_base)
    (dimension : N) : result Z :=
  r <- get_group_range d g ;;
  subscript r dimension.

(** [size_t operator[](size_t dim) const] *)
Definition operator_subscript (d : dimensions) (g : group_base) (dim : N)
  : result Z :=
  get_id_at d g (to_unsigned_int dim).

End GroupAccessors.

(** What an accessor of a group returns in a dimension: the stored element
    below the dimension count, the padding up to the third dimension, and
    a failed assertion from there on. *)
Definition padded_element (d : dimensions) (fill : Z) (a : index_array)
    (dimension : N) : result Z :=
  if (dimension <? dim_N d)%N then
    match m_idx a dimension with
    | Some v => Ok v
    | None => Fail OutOfBounds
    end
  else if (dimension <? 3)%N then Ok fill
  else Fail (AssertionFailed "Incorrect number of dimensions").

(** The first [d] elements of the local range of a group are positive. *)
Definition local_range_positive (d : dimensions) (g : group_base) : Prop :=
  forall i : N, (i < dim_N d)%N ->
    exists v, m_idx (m_localRange g) i = Some v /\ 0 < v.

(** The item [h] refers to a place inside [its range]: each element of the
    id is below the element of the range. *)
Definition inside_range (it : item_base) : Prop :=
  0 <= m_idx0 (item_id it) < m_idx0 (item_range it)
  /\ 0 <= m_idx1 (item_id it) < m_idx1 (item_range it)
  /\ 0 <= m_idx2 (item_id it) < m_idx2 (item_range it).

(** The elements a list of moves writes, and the condition under which the
    moves act as one parallel copy: no element is written twice and no
    element that is read is also written. *)
Definition destinations (l : list element_move) : list Z := map move_to l.

Definition moves_independent (l : list element_move) : Prop :=
  NoDup (destinations l)
  /\ forall m m', In m l -> In m' l -> move_from m <> move_to m'.

(** * detail::access_range (SYCL/accessor/accessor_args.h) *)

Record access_range : Type := mk_access_range {
  offset : index_array;
  range_ : index_array
}.

Module AccessRange.

(** [access_range(index_array accessOffset, index_array accessRange)] *)
Definition ctor (accessOffset accessRange : index_array) : access_range :=
  mk_access_range accessOffset accessRange.

(** One conjunct [lhs[dim] == rhs[dim]] of [operator==], followed by the
    rest of the conjunction when it holds. *)
Definition same_element (lhs rhs : index_array) (dim : N)
    (rest : result bool) : result bool :=
  l <- IndexArray.subscript lhs dim ;;
  r <- IndexArray.subscript rhs dim ;;
  if l =? r then rest else Ok false.

(** [bool operator==(const access_range& rhs)] *)
Definition eqb (this rhs : access_range) : result bool :=
  same_element (range_ this) (range_ rhs) 0
    (same_element (range_ this) (range_ rhs) 1
       (same_element (range_ this) (range_ rhs) 2
          (same_element (offset this) (offset rhs) 0
             (same_element (offset this) (offset rhs) 1
                (same_element (offset this) (offset rhs) 2 (Ok true)))))).

(** The lambda [is_point_dimension] of [num_dimensions]. *)
Definition is_point_dimension (this : access_range) (dim : N) : result bool :=
  r <- IndexArray.subscript (range_ this) dim ;;
  if r =? 1 then
    o <- IndexArray.subscript (offset this) dim ;;
    Ok (o =? 0)
  else Ok false.

(** [int num_dimensions() const noexcept] *)
Definition num_dimensions (this : access_range) : result Z :=
  p1 <- is_point_dimension this 1 ;;
  if p1 : bool then
    p2 <- is_point_dimension this 2 ;;
    if p2 : bool then Ok 1 else Ok 3
  else
    p2 <- is_point_dimension this 2 ;;
    if p2 : bool then Ok 2 else Ok 3.

End AccessRange.

(** A dimension of an access range is a single point: extent 1 at offset
    0. *)
Definition point_dimension (a : access_range) (dim : N) : Prop :=
  m_idx (range_ a) dim = Some 1 /\ m_idx (offset a) dim = Some 0.

(** * Comparisons of explicit pointers (SYCL/multi_pointer.h) *)

(** The operators that [COMPUTECPP_EXPLICIT_POINTER_OP_DEFINITION] defines
    for each explicit pointer class ([private_ptr], [global_ptr],
    [constant_ptr], [local_ptr], [subgroup_local_ptr]).  The class and its
    [get()], the raw pointer as an address, are the parameters of the
    macro; the null pointer is address 0. *)
Module ExplicitPointer.

Section Operators.

Variable explicit_ptr : Type.
Variable get : explicit_ptr -> Z.

Definition nullptr : Z := 0.

Definition eq (lhs rhs : explicit_ptr) : bool := get lhs =? get rhs.
Definition ne (lhs rhs : explicit_ptr) : bool := negb (eq lhs rhs).
Definition lt (lhs rhs : explicit_ptr) : bool := get lhs <? get rhs.
Definition gt (lhs rhs : explicit_ptr) : bool := get lhs >? get rhs.
Definition ge (lhs rhs : explicit_ptr) : bool := eq lhs rhs || gt lhs rhs.
Definition le (lhs rhs : explicit_ptr) : bool := eq lhs rhs || lt lhs rhs.

(** With [std::nullptr_t] on the right ([_null]) or on the left
    ([null_]). *)
Definition eq_null (lhs : explicit_ptr) : bool := get lhs =? nullptr.
Definition null_eq (rhs : explicit_ptr) : bool := eq_null rhs.
Definition ne_null (lhs : explicit_ptr) : bool := negb (eq_null lhs).
Definition null_ne (rhs : explicit_ptr) : bool := negb (null_eq rhs).
Definition gt_null (lhs : explicit_ptr) : bool := ne_null lhs.
Definition null_gt (rhs : explicit_ptr) : bool := false.
Definition lt_null (lhs : explicit_ptr) : bool := false.
Definition null_lt (rhs : explicit_ptr) : bool := null_ne rhs.
Definition ge_null (lhs : explicit_ptr) : bool := true.
Definition null_ge (rhs : explicit_ptr) : bool := null_eq rhs.
Definition le_null (lhs : explicit_ptr) : bool := eq_null lhs.
Definition null_le (rhs : explicit_ptr) : bool := true.

End Operators.

End ExplicitPointer.

(** * reduction.cpp *)

(** [unsigned int] arithmetic. *)
Definition unsigned_int_wrap (z : Z) : Z := z mod 2 ^ 32.

(** [bool isPowerOfTwo(unsigned int x)] *)
Definition isPowerOfTwo (x : Z) : bool :=
  negb (x =? 0) && (Z.land x (unsigned_int_wrap (x - 1)) =? 0).

(** * atomic<T>::fetch_min and fetch_max on the host (SYCL/atomic.h) *)

(** What has happened to the atomic object between the last read of the
    calling thread and its next [compare_exchange_weak]: nothing, nothing
    but the exchange fails spuriously, or another thread has stored a
    value. *)
Inductive interference : Type :=
| quiet
| spurious
| stored (v : Z).

Module Atomic.

(** The loop of [fetch_min], entered with [old], the value read last, which
    is also the content of the object at that time.  One element of the
    schedule is consumed by each [compare_exchange_weak]; when the schedule
    is used up the other threads stay quiet.  The result is the value
    returned and the content of the object when the function returns. *)
Fixpoint fetch_min_loop (schedule : list interference) (operand old : Z)
  : Z * Z :=
  if old <? operand then (old, old)
  else
    match schedule with
    | [] => (old, operand)
    | quiet :: _ => (old, operand)
    | spurious :: rest => fetch_min_loop rest operand old
    | stored v :: rest =>
        if v =? old then (old, operand)
        else fetch_min_loop rest operand v
    end.

(** [T atomic<T>::fetch_min(const T operand, const memory_order)] on an
    object that holds [content]. *)
Definition fetch_min (schedule : list interference) (operand content : Z)
  : Z * Z :=
  let old := content in
  fetch_min_loop schedule operand old.

Fixpoint fetch_max_loop (schedule : list interference) (operand old : Z)
  : Z * Z :=
  if operand <? old then (old, old)
  else
    match schedule with
    | [] => (old, operand)
    | quiet :: _ => (old, operand)
    | spurious :: rest => fetch_max_loop rest operand old
    | stored v :: rest =>
        if v =? old then (old, operand)
        else fetch_max_loop rest operand v
    end.

(** [T atomic<T>::fetch_max(const T operand, const memory_order)] *)
Definition fetch_max (schedule : list interference) (operand content : Z)
  : Z * Z :=
  let old := content in
  fetch_max_loop schedule operand old.

End Atomic.

(** * Consistent groups *)

(** In one dimension: a positive local size [l], a group index [gi] whose
    group lies inside the global size [G], and a global size that fits
    [size_t]. *)
Definition dimension_consistent (l gi G : Z) : Prop :=
  0 < l /\ 0 <= gi /\ l * (gi + 1) <= G /\ G < SizeT.modulus.

(** The same in each of the first [d] dimensions of a group. *)
Definition group_consistent (d : dimensions) (g : group_base) : Prop :=
  let l := m_localRange g in
  let gi := m_groupID g in
  let G := m_globalRange g in
  match d with
  | D1 => dimension_consistent (m_idx0 l) (m_idx0 gi) (m_idx0 G)
  | D2 => dimension_consistent (m_idx0 l) (m_idx0 gi) (m_idx0 G)
          /\ dimension_consistent (m_idx1 l) (m_idx1 gi) (m_idx1 G)
  | D3 => dimension_consistent (m_idx0 l) (m_idx0 gi) (m_idx0 G)
          /\ dimension_consistent (m_idx1 l) (m_idx1 gi) (m_idx1 G)
          /\ dimension_consistent (m_idx2 l) (m_idx2 gi) (m_idx2 G)
  end.

(** Ranges and ids of one dimension whose sum wraps around. *)
Definition small_range : range D1 :=
  IndexArrayOperators.of_index_array (mk_index_array 5 1 1).

Definition large_range : range D1 :=
  IndexArrayOperators.of_index_array (mk_index_array (2 ^ 64 - 2) 1 1).

Definition small_id : sycl_id D1 :=
  IndexArrayOperators.of_index_array (mk_index_array 7 0 0).

Definition large_id : sycl_id D1 :=
  IndexArrayOperators.of_index_array (mk_index_array (2 ^ 64 - 1) 0 0).

(** * The reduction inside one work group (examples/reduction.hpp) *)

(** Conversion of a [size_t] to [int] (two's complement, 32 bits). *)
Definition to_int (z : Z) : Z :=
  let w := z mod 2 ^ 32 in
  if w <? 2 ^ 31 then w else w - 2 ^ 32.

Section WorkGroupReduction.

Variable T : Type.
Variable bop : T -> T -> T.

(** One pass of the loop body over the work items of a group, between two
    barriers: the work item [localid] below [offset] executes
    [scratch[localid] = bop(scratch[localid], scratch[localid + offset])].
    The work items write different elements and none reads an element that
    another one writes in the same pass, so the pass is one simultaneous
    update of the local memory. *)
Definition reduction_pass (offset : Z) (scratch : Z -> T) : Z -> T :=
  fun localid =>
    if (0 <=? localid) && (localid <? offset)
    then bop (scratch localid) (scratch (localid + offset))
    else scratch localid.

(** [for (size_t offset = min / 2; offset > 0; offset /= 2)], from the
    current [offset] on. *)
Fixpoint reduction_loop (fuel : nat) (offset : Z) (scratch : Z -> T)
  : option (Z -> T) :=
  if 0 <? offset then
    match fuel with
    | O => None
    | S fuel' =>
        reduction_loop fuel' (offset / 2) (reduction_pass offset scratch)
    end
  else Some scratch.

(** The reduction of a work group, all of whose work items have
    [globalid < length], on its local memory; the result of the group is
    element 0.  [size] is the value of
    [(length < local) ? length : local], a [size_t] that the kernel stores
    in [int min]; [min / 2] is a division of [int], and its value starts
    the [size_t] counter. *)
Definition work_group_reduce (fuel : nat) (size : Z) (scratch : Z -> T)
  : option (Z -> T) :=
  let min := to_int size in
  reduction_loop fuel (SizeT.wrap (Z.quot min 2)) scratch.

(** [bop] applied from the left over the elements [a], ..., [a + k]. *)
Fixpoint accumulate_from (scratch : Z -> T) (a : Z) (k : nat) : T :=
  match k with
  | O => scratch a
  | S k' =>
      bop (accumulate_from scratch a k') (scratch (a + Z.of_nat (S k')))
  end.

End WorkGroupReduction.

Arguments reduction_pass {T} _ _ _ _.
Arguments reduction_loop {T} _ _ _ _.
Arguments work_group_reduce {T} _ _ _ _.
Arguments accumulate_from {T} _ _ _ _.

(** * Properties *)

(** ** size_t arithmetic *)

Lemma wrap_range (z : Z) : 0 <= SizeT.wrap z < SizeT.modulus.
Proof. unfold SizeT.wrap, SizeT.modulus. apply Z.mod_pos_bound. lia. Qed.

Lemma wrap_small (z : Z) : 0 <= z < SizeT.modulus -> SizeT.wrap z = z.
Proof. intros H. unfold SizeT.wrap. apply Z.mod_small. exact H. Qed.

Lemma mul_wrap_l (a b : Z) : SizeT.mul (SizeT.wrap a) b = SizeT.wrap (a * b).
Proof.
  unfold SizeT.mul, SizeT.wrap. apply Z.mul_mod_idemp_l.
  unfold SizeT.modulus. lia.
Qed.

(** A division or remainder whose divisor is known to be nonzero. *)
Ltac nonzero_divisor :=
  unfold size_t_div, size_t_rem;
  repeat match goal with
         | |- context [?b =? 0] =>
             destruct (Z.eqb_spec b 0) as [? | _]; [contradiction |]
         end.

(** ** Subscripts and constructors never trip their assertions *)

Lemma dimension_cases (dimension : N) :
  (dimension < 3)%N -> dimension = 0%N \/ dimension = 1%N \/ dimension = 2%N.
Proof. lia. Qed.

Lemma ctor_from_any (init : index_array) (x y z : Z) :
  IndexArrayBase.ctor_from init x y z
  = Ok (mk_index_array_base (mk_index_array x y z)).
Proof. reflexivity. Qed.

Lemma operators_ctor_ok (dims : dimensions) (C : Child) (a b c : Z) :
  @IndexArrayOperators.ctor dims C a b c
  = Ok (IndexArrayOperators.of_index_array (mk_index_array a b c)).
Proof. reflexivity. Qed.

Lemma subscript_ok {dims C} (a : index_array_operators dims C) (i : N) :
  (i < 3)%N -> IndexArrayOperators.subscript a i = Ok (element a i).
Proof.
  intros H. destruct a as [[[x y z]]].
  destruct (dimension_cases i H) as [-> | [-> | ->]]; reflexivity.
Qed.

Lemma is_equal_refl (d : dimensions) (a : index_array) :
  IndexArrayOperators.is_equal d a a = true.
Proof.
  unfold IndexArrayOperators.is_equal.
  destruct d; cbn; rewrite ?Z.eqb_refl; reflexivity.
Qed.

(** C7. For every index_array and every index_array_base, and for every
    dimension below three, the assertion [dimension < 3] of [operator[]]
    holds and the subscript returns exactly the stored element
    [m_idx[dimension]]; an assignment through the subscript lands in that
    element. *)
Theorem subscript_returns_stored_element
    (x : index_array) (xb : index_array_base) (dimension : N) (v : Z) :
  (dimension < 3)%N ->
  COMPUTECPP_ASSERT (dimension <? 3)%N "Incorrect number of dimensions" = Ok tt
  /\ (exists e, m_idx x dimension = Some e
              /\ IndexArray.subscript x dimension = Ok e)
  /\ (exists e, m_idx (base_m_idx xb) dimension = Some e
              /\ IndexArrayBase.subscript xb dimension = Ok e)
  /\ (exists x', IndexArray.subscript_assign x dimension v = Ok x'
               /\ m_idx x' dimension = Some v)
  /\ (exists xb', IndexArrayBase.subscript_assign xb dimension v = Ok xb'
                /\ m_idx (base_m_idx xb') dimension = Some v).
Proof.
  intros H. destruct x as [x0 x1 x2], xb as [[b0 b1 b2]].
  destruct (dimension_cases dimension H) as [-> | [-> | ->]];
    (split; [reflexivity | repeat split; eexists; split; reflexivity]).
Qed.

Lemma subscript_returns_stored_element_witness :
  (2 < 3)%N
  /\ IndexArray.subscript (mk_index_array 7 8 9) 2 = Ok 9
  /\ IndexArrayBase.subscript (mk_index_array_base (mk_index_array 4 5 6)) 2
     = Ok 6.
Proof.
  destruct (subscript_returns_stored_element
              (mk_index_array 7 8 9)
              (mk_index_array_base (mk_index_array 4 5 6)) 2 0)
    as (_ & (e & He & Hs) & (e' & He' & Hs') & _).
  - reflexivity.
  - split; [reflexivity |].
    injection He as <-. injection He' as <-. split; assumption.
Defined.

(** ** range and id *)

(** C4. [range<d>::size()] returns the product of the [d] extents of the
    range, computed in [size_t], that is modulo 2^64: [r[0]] for one
    dimension, [r[0]*r[1]] for two, [r[0]*r[1]*r[2]] for three. *)
Theorem range_size_is_product (d : dimensions) (r : range d) :
  Range.size d r
  = Ok (match d with
        | D1 => extent r 0
        | D2 => (extent r 0 * extent r 1) mod 2 ^ 64
        | D3 => (extent r 0 * extent r 1 * extent r 2) mod 2 ^ 64
        end).
Proof.
  destruct r as [[[x y z]]]. destruct d; cbn.
  - reflexivity.
  - reflexivity.
  - f_equal. apply (mul_wrap_l (x * y) z).
Qed.

(** C5. A default-constructed [range<d>] holds 1 in every component, and is
    the range built by [range<1>(1)], [range<2>(1, 1)] or
    [range<3>(1, 1, 1)]. *)
Theorem range_default_is_ones (d : dimensions) :
  exists r : range d,
    Range.default d = Ok r
    /\ IndexArrayOperators.to_index_array r = mk_index_array 1 1 1
    /\ IndexArrayOperators.subscript r 0 = Ok 1
    /\ IndexArrayOperators.subscript r 1 = Ok 1
    /\ IndexArrayOperators.subscript r 2 = Ok 1
    /\ Range.default d
       = match d return result (range d) with
         | D1 => Range.ctor1 1
         | D2 => Range.ctor2 1 1
         | D3 => Range.ctor3 1 1 1
         end.
Proof.
  eexists. split; [reflexivity |].
  repeat split; destruct d; reflexivity.
Qed.

(** C6. A default-constructed [id<d>] holds 0 in every component, whatever
    the member held before the constructor stored into it. *)
Theorem id_default_is_zero (d : dimensions) (init : index_array) :
  exists i : sycl_id d,
    Id.default_from init d = Ok i
    /\ Id.default d = Ok i
    /\ IndexArrayOperators.to_index_array i = mk_index_array 0 0 0
    /\ IndexArrayOperators.subscript i 0 = Ok 0
    /\ IndexArrayOperators.subscript i 1 = Ok 0
    /\ IndexArrayOperators.subscript i 2 = Ok 0.
Proof.
  exists (IndexArrayOperators.of_index_array (mk_index_array 0 0 0)).
  split.
  - unfold Id.default_from, IndexArrayOperators.ctor_from.
    rewrite ctor_from_any. reflexivity.
  - split; [apply operators_ctor_ok |]. repeat split.
Qed.

(** ** info_convert<size_t*, range<3>>::cl_to_sycl *)

(** C8. [cl_to_sycl(clPtr, numElems, clParam)] raises the ComputeCpp error
    [TARGET_FORMAT_ERROR] exactly when [numElems] is not 3; with three
    elements it returns [range<3>(clPtr[0], clPtr[1], clPtr[2])]. *)
Theorem cl_to_sycl_target_format_error
    (clPtr : Z -> Z) (numElems clParam : Z) :
  ((exists cl_code msg,
       cl_to_sycl clPtr numElems clParam
       = Fail (SyclException cl_code TARGET_FORMAT_ERROR msg))
   <-> numElems <> 3)
  /\ cl_to_sycl clPtr 3 clParam = Range.ctor3 (clPtr 0) (clPtr 1) (clPtr 2)
  /\ cl_to_sycl clPtr 3 clParam
     = Ok (IndexArrayOperators.of_index_array
             (mk_index_array (clPtr 0) (clPtr 1) (clPtr 2))).
Proof.
  split; [| split; reflexivity].
  unfold cl_to_sycl. destruct (Z.eqb_spec numElems 3) as [-> | Hne]; cbn.
  - split.
    + intros (cl_code & msg & H). discriminate H.
    + intros H. contradiction H. reflexivity.
  - split.
    + intros _. exact Hne.
    + intros _. do 2 eexists. reflexivity.
Qed.

(** ** Relational operators *)

Lemma default_ctor_ok (dims : dimensions) (C : Child) :
  default_ctor dims C
  = Ok (IndexArrayOperators.of_index_array
          match C with
          | range_child => mk_index_array 1 1 1
          | id_child => mk_index_array 0 0 0
          end).
Proof. destruct C; reflexivity. Qed.

Lemma of_bool_binary (b : bool) : SizeT.of_bool b = 0 \/ SizeT.of_bool b = 1.
Proof. destruct b; [right | left]; reflexivity. Qed.

(** C9. For two index objects of one type ([range<d>] with [range<d>], or
    [id<d>] with [id<d>]) the operators [<], [>], [<=] and [>=] return an
    object of that same type, whose component [i], for [i < d], is the 0 or
    1 obtained by comparing [a[i]] with [b[i]]. *)
Theorem relational_is_componentwise
    (d : dimensions) (C : Child) (op : relational)
    (a b : index_array_operators d C) (i : N) :
  (i < dim_N d)%N ->
  exists r : index_array_operators d C,
    operator_relational op a b = Ok r
    /\ IndexArrayOperators.subscript r i
       = Ok (SizeT.of_bool (relational_eval op (element a i) (element b i)))
    /\ (element r i = 0 \/ element r i = 1).
Proof.
  intros Hi. destruct a as [[[a0 a1 a2]]], b as [[[b0 b1 b2]]].
  assert (H3 : (i < 3)%N) by (destruct d; cbn in Hi; lia).
  destruct (dimension_cases i H3) as [-> | [-> | ->]];
    destruct d; cbn in Hi; try lia; destruct C;
    (eexists; split; [reflexivity | split; [reflexivity |]]);
    apply of_bool_binary.
Qed.

Lemma relational_is_componentwise_witness :
  (1 < dim_N D2)%N
  /\ exists r : range D2,
       operator_relational op_lt
         (IndexArrayOperators.of_index_array (mk_index_array 2 3 1))
         (IndexArrayOperators.of_index_array (mk_index_array 5 3 1)) = Ok r
       /\ IndexArrayOperators.subscript r 1 = Ok 0
       /\ (element r 1 = 0 \/ element r 1 = 1).
Proof.
  split; [reflexivity |].
  apply (relational_is_componentwise D2 range_child op_lt
           (IndexArrayOperators.of_index_array (mk_index_array 2 3 1))
           (IndexArrayOperators.of_index_array (mk_index_array 5 3 1)) 1).
  reflexivity.
Defined.

(** ** The constructor of group *)

(** A zero among the three stored elements of the group range makes
    [group::group] divide by zero. *)
Lemma group_ctor_zero_divisor
    (d : dimensions) (groupID groupRange : sycl_id d) (globalRange : range d) :
  element groupRange 0 = 0 \/ element groupRange 1 = 0
  \/ element groupRange 2 = 0 ->
  Group.ctor groupID groupRange globalRange
  = Fail DivisionByZero.
Proof.
  destruct groupRange as [[[r0 r1 r2]]], globalRange as [[[g0 g1 g2]]].
  cbn. intros H. unfold Group.ctor, size_t_div. cbn.
  destruct (Z.eqb_spec r0 0); [reflexivity |].
  destruct (Z.eqb_spec r1 0); [reflexivity |].
  destruct (Z.eqb_spec r2 0); [reflexivity |].
  lia.
Qed.


(** ** Loops *)

Lemma counter_values_shift (i0 : Z) (count : nat) :
  map (fun k => i0 + Z.of_nat k) (seq 1 count)
  = map (fun k => (i0 + 1) + Z.of_nat k) (seq 0 count).
Proof.
  rewrite <- seq_shift, map_map. apply map_ext. intros k. lia.
Qed.

(** A loop whose body appends [f i] to an output and keeps an invariant
    appends the [f i] in the order of the counter. *)
Lemma for_upto_accumulate {St B : Type}
    (inv : St -> Prop) (out : St -> list B) (f : Z -> list B)
    (body : Z -> St -> result St) :
  forall (count : nat) (i0 : Z) (s : St),
    inv s ->
    (forall i s0, i0 <= i < i0 + Z.of_nat count -> inv s0 ->
       exists s1, body i s0 = Ok s1 /\ inv s1 /\ out s1 = out s0 ++ f i) ->
    exists s', for_upto count i0 body s = Ok s'
               /\ inv s'
               /\ out s' = out s
                           ++ flat_map f
                                (map (fun k => i0 + Z.of_nat k) (seq 0 count)).
Proof.
  induction count as [| count IH]; intros i0 s Hinv Hbody.
  - exists s. cbn. rewrite app_nil_r. auto.
  - destruct (Hbody i0 s ltac:(lia) Hinv) as (s1 & Hs1 & Hinv1 & Hout1).
    destruct (IH (i0 + 1) s1 Hinv1) as (s' & Hs' & Hinv' & Hout').
    { intros i s0 Hi. apply Hbody. lia. }
    exists s'. split; [| split].
    + cbn [for_upto]. rewrite Hs1. exact Hs'.
    + exact Hinv'.
    + rewrite Hout', Hout1. cbn [seq map flat_map].
      rewrite counter_values_shift, Z.add_0_r, app_assoc. reflexivity.
Qed.

Lemma for_size_t_accumulate {St B : Type}
    (inv : St -> Prop) (out : St -> list B) (f : Z -> list B)
    (body : Z -> St -> result St) (bound : Z) (s : St) :
  inv s ->
  (forall i s0, 0 <= i < bound -> inv s0 ->
     exists s1, body i s0 = Ok s1 /\ inv s1 /\ out s1 = out s0 ++ f i) ->
  exists s', for_size_t bound body s = Ok s'
             /\ inv s'
             /\ out s' = out s ++ flat_map f (counter_values bound).
Proof.
  intros Hinv Hbody. unfold for_size_t, counter_values.
  destruct (for_upto_accumulate inv out f body (Z.to_nat bound) 0 s Hinv)
    as (s' & H1 & H2 & H3).
  { intros i s0 Hi. apply Hbody. lia. }
  exists s'. split; [exact H1 | split; [exact H2 |]].
  rewrite H3. reflexivity.
Qed.

Lemma in_counter_values (bound i : Z) :
  In i (counter_values bound) <-> 0 <= i < bound.
Proof.
  unfold counter_values. rewrite in_map_iff. split.
  - intros (k & <- & Hk). apply in_seq in Hk. lia.
  - intros H. exists (Z.to_nat i). split; [lia |]. apply in_seq. lia.
Qed.

Lemma NoDup_counter_values (bound : Z) : NoDup (counter_values bound).
Proof.
  unfold counter_values. apply Injective_map_NoDup.
  - intros a b H. lia.
  - apply seq_NoDup.
Qed.

Lemma flat_map_singleton {A B : Type} (f : A -> B) (l : list A) :
  flat_map (fun a => [f a]) l = map f l.
Proof. induction l as [| a l IH]; cbn; [| rewrite IH]; reflexivity. Qed.

Lemma map_flat_map {A B C : Type} (g : B -> C) (f : A -> list B) (l : list A) :
  map g (flat_map f l) = flat_map (fun a => map g (f a)) l.
Proof.
  induction l as [| a l IH]; cbn; [reflexivity |].
  rewrite map_app, IH. reflexivity.
Qed.

Lemma Forall2_map_in {A B : Type} (R : A -> B -> Prop) (f : A -> B)
    (l : list A) :
  (forall a, In a l -> R a (f a)) -> Forall2 R l (map f l).
Proof.
  induction l as [| a l IH]; intros H; cbn; constructor.
  - apply H. left. reflexivity.
  - apply IH. intros a' Ha'. apply H. right. exact Ha'.
Qed.

Lemma NoDup_flat_map_disjoint {A B : Type} (f : A -> list B) (l : list A) :
  NoDup l ->
  (forall a, NoDup (f a)) ->
  (forall a a' b, In b (f a) -> In b (f a') -> a = a') ->
  NoDup (flat_map f l).
Proof.
  intros Hl Hf Hdisj. induction Hl as [| a l Hnotin Hnd IH]; cbn.
  - constructor.
  - apply NoDup_app; [apply Hf | exact IH |].
    intros b Hb Hb'. apply in_flat_map in Hb' as (a' & Ha' & Hb').
    apply Hnotin. rewrite (Hdisj a a' b Hb Hb'). exact Ha'.
Qed.

(** ** The logical indices *)

Lemma in_logical_indices (f : index_array) (x y z : Z) :
  In (x, y, z) (logical_indices f)
  <-> 0 <= x < m_idx0 f /\ 0 <= y < m_idx1 f /\ 0 <= z < m_idx2 f.
Proof.
  unfold logical_indices. rewrite in_flat_map. split.
  - intros (z' & Hz & H). apply in_flat_map in H as (y' & Hy & H).
    apply in_map_iff in H as (x' & E & Hx). inversion E; subst.
    rewrite in_counter_values in Hx, Hy, Hz. auto.
  - intros (Hx & Hy & Hz). exists z. split; [apply in_counter_values, Hz |].
    apply in_flat_map. exists y. split; [apply in_counter_values, Hy |].
    apply in_map_iff. exists x. split; [reflexivity |].
    apply in_counter_values, Hx.
Qed.

Lemma NoDup_logical_indices (f : index_array) : NoDup (logical_indices f).
Proof.
  unfold logical_indices.
  apply NoDup_flat_map_disjoint; [apply NoDup_counter_values | |].
  - intros z. apply NoDup_flat_map_disjoint; [apply NoDup_counter_values | |].
    + intros y. apply Injective_map_NoDup; [| apply NoDup_counter_values].
      intros a b E. inversion E. reflexivity.
    + intros y y' [[x0 y0] z0] H H'.
      apply in_map_iff in H as (? & E & _), H' as (? & E' & _).
      inversion E; inversion E'; subst. reflexivity.
  - intros z z' [[x0 y0] z0] H H'.
    apply in_flat_map in H as (? & _ & H), H' as (? & _ & H').
    apply in_map_iff in H as (? & E & _), H' as (? & E' & _).
    inversion E; inversion E'; subst. reflexivity.
Qed.

Lemma length_logical_indices (f : index_array) :
  List.length (logical_indices f)
  = (Z.to_nat (m_idx0 f) * Z.to_nat (m_idx1 f) * Z.to_nat (m_idx2 f))%nat.
Proof.
  unfold logical_indices.
  assert (Hc : forall b, List.length (counter_values b) = Z.to_nat b).
  { intros b. unfold counter_values. rewrite length_map, length_seq.
    reflexivity. }
  assert (Hf : forall {A B} (g : A -> list B) (l : list A) (n : nat),
             (forall a, List.length (g a) = n) ->
             List.length (flat_map g l) = (List.length l * n)%nat).
  { intros A B g l n Hn. induction l as [| a l IH]; cbn; [reflexivity |].
    rewrite length_app, Hn, IH. reflexivity. }
  rewrite (Hf _ _ _ _ (Z.to_nat (m_idx0 f) * Z.to_nat (m_idx1 f))%nat).
  - rewrite Hc. lia.
  - intros z.
    rewrite (Hf _ _ _ _ (Z.to_nat (m_idx0 f))).
    + rewrite Hc. lia.
    + intros y. rewrite length_map. apply Hc.
Qed.

(** ** parallel_for_work_item *)

Section LoopNest.

Import IndexArrayOperators.

Variable d : dimensions.
Variables flexibleRange globalRange physicalLocalRange : range d.
Variable globalIdBase : sycl_id d.

Local Abbreviation item :=
  (work_item d (to_index_array flexibleRange) (to_index_array globalRange)
     (to_index_array physicalLocalRange) (to_index_array globalIdBase)).

Lemma body_x_ok (itemY itemZ itemX : Z) (s : Group.loop_state d) :
  element physicalLocalRange 0 <> 0 ->
  Group.body_x d flexibleRange globalRange physicalLocalRange globalIdBase
    itemY itemZ itemX s
  = Ok (Group.mk_loop_state
          (of_index_array
             (mk_index_array (itemX mod element physicalLocalRange 0)
                (element (Group.physicalLocalID s) 1)
                (element (Group.physicalLocalID s) 2)))
          (Group.calls s
           ++ [item (element (Group.physicalLocalID s) 1)
                    (element (Group.physicalLocalID s) 2)
                    itemX itemY itemZ])).
Proof.
  destruct s as [[[[p0 p1 p2]]] cs].
  destruct flexibleRange as [[[f0 f1 f2]]], globalRange as [[[g0 g1 g2]]],
    physicalLocalRange as [[[l0 l1 l2]]], globalIdBase as [[[b0 b1 b2]]].
  cbn [element to_index_array IndexArrayBase.to_index_array as_base
       base_m_idx m_idx m_idx0]. intros Hl0.
  unfold Group.body_x, size_t_rem. cbn [subscript IndexArrayBase.subscript
    as_base base_m_idx COMPUTECPP_ASSERT N.ltb N.compare Pos.compare
    Pos.compare_cont rbind IndexArray.subscript raw_read m_idx m_idx0].
  nonzero_divisor. destruct d; reflexivity.
Qed.

Lemma x_loop_ok (itemY itemZ : Z) (s : Group.loop_state d) :
  element physicalLocalRange 0 <> 0 ->
  exists s',
    for_size_t (element flexibleRange 0)
      (Group.body_x d flexibleRange globalRange physicalLocalRange
         globalIdBase itemY itemZ) s = Ok s'
    /\ element (Group.physicalLocalID s') 1
       = element (Group.physicalLocalID s) 1
    /\ element (Group.physicalLocalID s') 2
       = element (Group.physicalLocalID s) 2
    /\ Group.calls s'
       = Group.calls s
         ++ map (fun x => item (element (Group.physicalLocalID s) 1)
                               (element (Group.physicalLocalID s) 2)
                               x itemY itemZ)
                (counter_values (element flexibleRange 0)).
Proof.
  intros Hl0.
  set (p1 := element (Group.physicalLocalID s) 1).
  set (p2 := element (Group.physicalLocalID s) 2).
  destruct (for_size_t_accumulate
              (fun s0 : Group.loop_state d =>
                 element (Group.physicalLocalID s0) 1 = p1
                 /\ element (Group.physicalLocalID s0) 2 = p2)
              (@Group.calls d)
              (fun x => [item p1 p2 x itemY itemZ])
              (Group.body_x d flexibleRange globalRange physicalLocalRange
                 globalIdBase itemY itemZ)
              (element flexibleRange 0) s)
    as (s' & Hrun & [H1 H2] & Hout).
  - split; reflexivity.
  - intros x s0 _ [E1 E2]. rewrite (body_x_ok itemY itemZ x s0 Hl0).
    eexists. split; [reflexivity |]. rewrite E1, E2.
    split; [split |]; reflexivity.
  - exists s'. rewrite flat_map_singleton in Hout. auto.
Qed.

Lemma body_y_ok (itemZ itemY : Z) (s : Group.loop_state d) :
  element physicalLocalRange 0 <> 0 ->
  element physicalLocalRange 1 <> 0 ->
  exists s',
    Group.body_y d flexibleRange globalRange physicalLocalRange globalIdBase
      itemZ itemY s = Ok s'
    /\ element (Group.physicalLocalID s') 2
       = element (Group.physicalLocalID s) 2
    /\ Group.calls s'
       = Group.calls s
         ++ map (fun x => item (itemY mod element physicalLocalRange 1)
                               (element (Group.physicalLocalID s) 2)
                               x itemY itemZ)
                (counter_values (element flexibleRange 0)).
Proof.
  intros Hl0 Hl1.
  pose (s1 := Group.mk_loop_state
                (of_index_array (dims := d) (C := id_child)
                   (mk_index_array
                      (element (Group.physicalLocalID s) 0)
                      (itemY mod element physicalLocalRange 1)
                      (element (Group.physicalLocalID s) 2)))
                (Group.calls s)).
  destruct (x_loop_ok itemY itemZ s1 Hl0) as (s' & Hrun & _ & H2 & Hout).
  exists s'. split; [| split; [exact H2 | exact Hout]].
  rewrite <- Hrun. unfold Group.body_y.
  rewrite (subscript_ok physicalLocalRange 1) by reflexivity.
  rewrite (subscript_ok flexibleRange 0) by reflexivity.
  cbn [rbind]. nonzero_divisor.
  destruct s as [[[[p0 p1 p2]]] cs]. reflexivity.
Qed.

Lemma y_loop_ok (itemZ : Z) (s : Group.loop_state d) :
  element physicalLocalRange 0 <> 0 ->
  element physicalLocalRange 1 <> 0 ->
  exists s',
    for_size_t (element flexibleRange 1)
      (Group.body_y d flexibleRange globalRange physicalLocalRange
         globalIdBase itemZ) s = Ok s'
    /\ element (Group.physicalLocalID s') 2
       = element (Group.physicalLocalID s) 2
    /\ Group.calls s'
       = Group.calls s
         ++ flat_map
              (fun y =>
                 map (fun x => item (y mod element physicalLocalRange 1)
                                    (element (Group.physicalLocalID s) 2)
                                    x y itemZ)
                     (counter_values (element flexibleRange 0)))
              (counter_values (element flexibleRange 1)).
Proof.
  intros Hl0 Hl1.
  set (p2 := element (Group.physicalLocalID s) 2).
  destruct (for_size_t_accumulate
              (fun s0 : Group.loop_state d =>
                 element (Group.physicalLocalID s0) 2 = p2)
              (@Group.calls d)
              (fun y =>
                 map (fun x => item (y mod element physicalLocalRange 1) p2
                                    x y itemZ)
                     (counter_values (element flexibleRange 0)))
              (Group.body_y d flexibleRange globalRange physicalLocalRange
                 globalIdBase itemZ)
              (element flexibleRange 1) s)
    as (s' & Hrun & H2 & Hout).
  - reflexivity.
  - intros y s0 _ E2.
    destruct (body_y_ok itemZ y s0 Hl0 Hl1) as (s1 & Hb & H2 & Hc).
    exists s1. rewrite E2 in H2, Hc. auto.
  - exists s'. auto.
Qed.

Lemma body_z_ok (itemZ : Z) (s : Group.loop_state d) :
  element physicalLocalRange 0 <> 0 ->
  element physicalLocalRange 1 <> 0 ->
  element physicalLocalRange 2 <> 0 ->
  exists s',
    Group.body_z d flexibleRange globalRange physicalLocalRange globalIdBase
      itemZ s = Ok s'
    /\ Group.calls s'
       = Group.calls s
         ++ flat_map
              (fun y =>
                 map (fun x => item (y mod element physicalLocalRange 1)
                                    (itemZ mod element physicalLocalRange 2)
                                    x y itemZ)
                     (counter_values (element flexibleRange 0)))
              (counter_values (element flexibleRange 1)).
Proof.
  intros Hl0 Hl1 Hl2.
  pose (s1 := Group.mk_loop_state
                (of_index_array (dims := d) (C := id_child)
                   (mk_index_array
                      (element (Group.physicalLocalID s) 0)
                      (element (Group.physicalLocalID s) 1)
                      (itemZ mod element physicalLocalRange 2)))
                (Group.calls s)).
  destruct (y_loop_ok itemZ s1 Hl0 Hl1) as (s' & Hrun & _ & Hout).
  exists s'. split; [| exact Hout].
  rewrite <- Hrun. unfold Group.body_z.
  rewrite (subscript_ok physicalLocalRange 2) by reflexivity.
  rewrite (subscript_ok flexibleRange 1) by reflexivity.
  cbn [rbind]. nonzero_divisor.
  destruct s as [[[[p0 p1 p2]]] cs]. reflexivity.
Qed.

Lemma z_loop_ok (s : Group.loop_state d) :
  element physicalLocalRange 0 <> 0 ->
  element physicalLocalRange 1 <> 0 ->
  element physicalLocalRange 2 <> 0 ->
  exists s',
    for_size_t (element flexibleRange 2)
      (Group.body_z d flexibleRange globalRange physicalLocalRange
         globalIdBase) s = Ok s'
    /\ Group.calls s'
       = Group.calls s
         ++ map (fun '(x, y, z) =>
                   item (y mod element physicalLocalRange 1)
                        (z mod element physicalLocalRange 2) x y z)
                (logical_indices (to_index_array flexibleRange)).
Proof.
  intros Hl0 Hl1 Hl2.
  destruct (for_size_t_accumulate
              (fun _ : Group.loop_state d => True)
              (@Group.calls d)
              (fun z =>
                 flat_map
                   (fun y =>
                      map (fun x => item (y mod element physicalLocalRange 1)
                                         (z mod element physicalLocalRange 2)
                                         x y z)
                          (counter_values (element flexibleRange 0)))
                   (counter_values (element flexibleRange 1)))
              (Group.body_z d flexibleRange globalRange physicalLocalRange
                 globalIdBase)
              (element flexibleRange 2) s I)
    as (s' & Hrun & _ & Hout).
  - intros z s0 _ _.
    destruct (body_z_ok z s0 Hl0 Hl1 Hl2) as (s1 & Hb & Hc).
    exists s1. auto.
  - exists s'. split; [exact Hrun |]. rewrite Hout. f_equal.
    unfold logical_indices. rewrite map_flat_map.
    destruct flexibleRange as [[[f0 f1 f2]]]. cbn [element to_index_array
      IndexArrayBase.to_index_array as_base base_m_idx m_idx m_idx0 m_idx1
      m_idx2].
    apply flat_map_ext. intros z. rewrite map_flat_map.
    apply flat_map_ext. intros y. rewrite map_map. reflexivity.
Qed.

End LoopNest.

Lemma range_of_index_array_ok (d : dimensions) (a : index_array) :
  Range.of_index_array d a
  = Ok (IndexArrayOperators.of_index_array (leading d 1 a)).
Proof. destruct d, a; reflexivity. Qed.

Lemma id_of_index_array_ok (d : dimensions) (a : index_array) :
  Id.of_index_array d a
  = Ok (IndexArrayOperators.of_index_array (leading d 0 a)).
Proof. destruct d, a; reflexivity. Qed.

Lemma operator_mul_range_id_ok (d : dimensions) (a : range d) (b : sycl_id d) :
  operator_mul a b
  = Ok (IndexArrayOperators.of_index_array
          (leading d 0
             (pointwise SizeT.mul (IndexArrayOperators.to_index_array a)
                (IndexArrayOperators.to_index_array b)))).
Proof. destruct a as [[[a0 a1 a2]]], b as [[[b0 b1 b2]]], d; reflexivity. Qed.

Lemma operator_add_id_id_ok (d : dimensions) (a b : sycl_id d) :
  operator_add a b
  = Ok (IndexArrayOperators.of_index_array
          (leading d 0
             (pointwise SizeT.add (IndexArrayOperators.to_index_array a)
                (IndexArrayOperators.to_index_array b)))).
Proof. destruct a as [[[a0 a1 a2]]], b as [[[b0 b1 b2]]], d; reflexivity. Qed.

Lemma local_range_elements_nonzero (d : dimensions) (g : group_base) :
  local_range_nonzero d g ->
  let plr : range d :=
    IndexArrayOperators.of_index_array (leading d 1 (m_localRange g)) in
  element plr 0 <> 0 /\ element plr 1 <> 0 /\ element plr 2 <> 0.
Proof.
  intros H. destruct g as [gid gr gl [l0 l1 l2]].
  assert (H0 := H 0%N). assert (H1 := H 1%N). assert (H2 := H 2%N).
  cbn in H0, H1, H2.
  destruct d; cbn in *; repeat split; try lia;
    intros E; subst;
    first [ now apply H0 | now apply H1 | now apply H2 ].
Qed.

(** C2, as amended.  For a group whose local range is nonzero in its first
    [d] components, the host [parallel_for_work_item(flexibleRange, func)]
    calls [func] once for each logical index [(x, y, z)] below the flexible
    range, z outermost and x innermost, and hands it the item whose
    physical local id is the logical index modulo the physical local range,
    component by component, and whose global id is
    [physicalLocalRange * groupID + physicalLocalID]. *)
Theorem parallel_for_work_item_calls
    (d : dimensions) (g : group_base) (flexibleRange : range d) :
  local_range_nonzero d g ->
  calls_once_per_index d g flexibleRange
  /\ NoDup (logical_indices (IndexArrayOperators.to_index_array flexibleRange))
  /\ (forall x y z,
        In (x, y, z)
           (logical_indices (IndexArrayOperators.to_index_array flexibleRange))
        <-> 0 <= x < element flexibleRange 0
            /\ 0 <= y < element flexibleRange 1
            /\ 0 <= z < element flexibleRange 2).
Proof.
  intros Hnz. split; [| split].
  2: apply NoDup_logical_indices.
  2: { intros x y z. rewrite in_logical_indices.
       destruct flexibleRange as [[[f0 f1 f2]]]. reflexivity. }
  destruct (local_range_elements_nonzero d g Hnz) as (Hl0 & Hl1 & Hl2).
  set (plr := IndexArrayOperators.of_index_array (dims := d) (C := range_child)
                (leading d 1 (m_localRange g))) in *.
  set (glob := IndexArrayOperators.of_index_array (dims := d) (C := range_child)
                 (leading d 1 (m_globalRange g))).
  set (gid := IndexArrayOperators.of_index_array (dims := d) (C := id_child)
                (leading d 0 (m_groupID g))).
  set (gbase := IndexArrayOperators.of_index_array (dims := d) (C := id_child)
                  (leading d 0
                     (pointwise SizeT.mul
                        (IndexArrayOperators.to_index_array plr)
                        (IndexArrayOperators.to_index_array gid)))).
  destruct (z_loop_ok d flexibleRange glob plr gbase
              (Group.mk_loop_state
                 (IndexArrayOperators.of_index_array (mk_index_array 0 0 0)) [])
              Hl0 Hl1 Hl2) as (s' & Hrun & Hcalls).
  unfold calls_once_per_index. exists (Group.calls s'). split.
  - unfold Group.parallel_for_work_item, Group.get_global_range,
      Group.get_local_range, Group.get_id.
    rewrite !range_of_index_array_ok, id_of_index_array_ok. cbn [rbind].
    fold plr glob gid. rewrite operator_mul_range_id_ok. fold gbase.
    unfold Id.default. rewrite operators_ctor_ok. cbn [rbind].
    rewrite (subscript_ok flexibleRange 2) by reflexivity. cbn [rbind].
    exact (f_equal (fun r => rbind r (fun s => Ok (Group.calls s))) Hrun).
  - rewrite Hcalls. cbn [Group.calls app].
    apply Forall2_map_in. intros [[x y] z] _.
    unfold item_for_index.
    exists plr, glob, gid,
      (IndexArrayOperators.of_index_array (leading d 0 (mk_index_array x y z))),
      (IndexArrayOperators.of_index_array
         (mk_index_array (x mod element plr 0) (y mod element plr 1)
            (z mod element plr 2))),
      gbase.
    eexists.
    unfold Group.get_global_range, Group.get_local_range, Group.get_id.
    rewrite !range_of_index_array_ok, !id_of_index_array_ok.
    rewrite operator_mul_range_id_ok, operator_add_id_id_ok.
    repeat (split; [reflexivity |]).
    intros i Hi. subst gbase plr gid.
    destruct g as [[i0 i1 i2] gr gl [l0 l1 l2]].
    destruct (dimension_cases i Hi) as [-> | [-> | ->]]; destruct d; cbn;
      rewrite ?Z.mod_1_r; reflexivity.
Qed.

Lemma sample_group_local_range_nonzero : local_range_nonzero D2 sample_group.
Proof.
  intros i Hi. cbn in Hi.
  assert (Hc : i = 0%N \/ i = 1%N) by lia.
  destruct Hc as [-> | ->]; cbn; discriminate.
Qed.

Lemma parallel_for_work_item_calls_witness :
  local_range_nonzero D2 sample_group
  /\ calls_once_per_index D2 sample_group sample_flexible_range
  /\ NoDup (logical_indices
              (IndexArrayOperators.to_index_array sample_flexible_range))
  /\ (forall x y z,
        In (x, y, z)
           (logical_indices
              (IndexArrayOperators.to_index_array sample_flexible_range))
        <-> 0 <= x < element sample_flexible_range 0
            /\ 0 <= y < element sample_flexible_range 1
            /\ 0 <= z < element sample_flexible_range 2).
Proof.
  split; [exact sample_group_local_range_nonzero |].
  apply (parallel_for_work_item_calls D2 sample_group sample_flexible_range).
  exact sample_group_local_range_nonzero.
Defined.

(** Without the condition on the local range the statement fails: with a
    local range whose first component is zero, the first item already
    divides by zero and [func] is not called for the one logical index of
    the range. *)
Lemma parallel_for_work_item_zero_local_range :
  Group.parallel_for_work_item D1 degenerate_group single_item_range
  = Fail DivisionByZero
  /\ logical_indices (IndexArrayOperators.to_index_array single_item_range)
     = [(0, 0, 0)]
  /\ ~ calls_once_per_index D1 degenerate_group single_item_range.
Proof.
  assert (H : Group.parallel_for_work_item D1 degenerate_group
                single_item_range = Fail DivisionByZero) by reflexivity.
  split; [exact H | split; [reflexivity |]].
  intros (items & Hrun & _). rewrite H in Hrun. discriminate Hrun.
Qed.

Example sample_group_item_count :
  exists items,
    Group.parallel_for_work_item D2 sample_group sample_flexible_range
    = Ok items
    /\ List.length items = 6%nat
    /\ map (fun h => item_id (logical_local_item h)) items
       = [mk_index_array 0 0 0; mk_index_array 1 0 0; mk_index_array 2 0 0;
          mk_index_array 0 1 0; mk_index_array 1 1 0; mk_index_array 2 1 0]
    /\ map (fun h => item_id (physical_local_item h)) items
       = [mk_index_array 0 0 0; mk_index_array 1 0 0; mk_index_array 0 0 0;
          mk_index_array 0 1 0; mk_index_array 1 1 0; mk_index_array 0 1 0]
    /\ map (fun h => item_id (global_item h)) items
       = [mk_index_array 2 0 0; mk_index_array 3 0 0; mk_index_array 2 0 0;
          mk_index_array 2 1 0; mk_index_array 3 1 0; mk_index_array 2 1 0].
Proof. eexists. split; [vm_compute; reflexivity |]. repeat split. Qed.



(** ** async_work_group_copy *)

Lemma is_zero_id_ok (d : dimensions) (g : group_base) :
  Group.is_zero_id d g = Ok (group_id_is_zero d g).
Proof.
  destruct g as [[i0 i1 i2] gr gl lr]. unfold Group.is_zero_id, Group.get_id.
  rewrite id_of_index_array_ok.
  destruct d; cbn; destruct (i0 =? 0); try reflexivity;
    destruct (i1 =? 0); reflexivity.
Qed.

Lemma add_stride (i stride : Z) :
  SizeT.add (SizeT.wrap (i * stride)) stride = SizeT.wrap ((i + 1) * stride).
Proof.
  unfold SizeT.add, SizeT.wrap.
  rewrite Z.add_mod_idemp_l by (unfold SizeT.modulus; lia).
  f_equal. lia.
Qed.

Section HostLoops.

Variable dataT : Type.

(** A host copy loop, from counter value [i0] on: the strided index
    belonging to counter value [i] is [i * stride] modulo 2^64. *)
Lemma host_loop_moves
    (move : Z -> Z -> element_move) (stride : Z) :
  forall (count : nat) (i0 : Z) (w : world dataT),
    for_upto count i0
      (fun i (st : copy_state dataT) =>
         let (iter, w) := st in
         Ok (SizeT.add iter stride,
             assign_element (move_to (move i iter))
               (move_from (move i iter)) w))
      (SizeT.wrap (i0 * stride), w)
    = Ok (SizeT.wrap ((i0 + Z.of_nat count) * stride),
          apply_moves
            (map (fun i => move i (SizeT.wrap (i * stride)))
                 (map (fun k => i0 + Z.of_nat k) (seq 0 count)))
            w).
Proof.
  induction count as [| count IH]; intros i0 w.
  - cbn. rewrite Z.add_0_r. reflexivity.
  - cbn [for_upto rbind]. rewrite add_stride, IH.
    cbn [seq map]. rewrite counter_values_shift, Z.add_0_r.
    unfold apply_moves. cbn [fold_left]. do 3 f_equal. lia.
Qed.

Lemma apply_moves_log (l : list element_move) (w : world dataT) :
  moves (apply_moves l w) = moves w ++ l
  /\ delegated (apply_moves l w) = delegated w.
Proof.
  revert w. induction l as [| m l IH]; intros w; cbn.
  - rewrite app_nil_r. auto.
  - destruct (IH (assign_element (move_to m) (move_from m) w)) as [H1 H2].
    unfold apply_moves in H1, H2. rewrite H1, H2. cbn.
    rewrite <- app_assoc. destruct m. auto.
Qed.

End HostLoops.

Lemma host_copy_to_local_strided_ok (dataT : Type) (d : dimensions)
    (g : group_base) (dest : local_ptr) (src : global_ptr) (n stride : Z)
    (w : world dataT) :
  async_work_group_copy_to_local_strided dataT host_build d g dest src n
    stride w
  = Ok (device_event_default,
        if group_id_is_zero d g
        then apply_moves (host_moves (copy_to_local_strided dest src n stride)) w
        else w).
Proof.
  unfold async_work_group_copy_to_local_strided. rewrite is_zero_id_ok.
  cbn [rbind]. destruct (group_id_is_zero d g); [| reflexivity].
  unfold for_size_t.
  exact (f_equal (fun x => rbind x (fun st => Ok (device_event_default, snd st)))
           (host_loop_moves dataT
              (fun i iter => mk_element_move (local_ptr_plus dest i)
                               (global_ptr_plus src iter))
              stride (Z.to_nat n) 0 w)).
Qed.

Lemma host_copy_to_global_strided_ok (dataT : Type) (d : dimensions)
    (g : group_base) (dest : global_ptr) (src : local_ptr) (n stride : Z)
    (w : world dataT) :
  async_work_group_copy_to_global_strided dataT host_build d g dest src n
    stride w
  = Ok (device_event_default,
        if group_id_is_zero d g
        then apply_moves (host_moves (copy_to_global_strided dest src n stride)) w
        else w).
Proof.
  unfold async_work_group_copy_to_global_strided. rewrite is_zero_id_ok.
  cbn [rbind]. destruct (group_id_is_zero d g); [| reflexivity].
  unfold for_size_t.
  exact (f_equal (fun x => rbind x (fun st => Ok (device_event_default, snd st)))
           (host_loop_moves dataT
              (fun i iter => mk_element_move (global_ptr_plus dest iter)
                               (local_ptr_plus src i))
              stride (Z.to_nat n) 0 w)).
Qed.

(** C1, as amended.  Built with [__SYCL_DEVICE_ONLY__], every overload of
    [group<d>::async_work_group_copy] hands the transfer to the hook of the
    device compiler, with previous event 0, and moves no element itself.
    Built for the host, no overload calls a hook: when the group id is zero
    the library copies the elements itself, one by one in ascending order,
    element [i] of the contiguous side with element [i * stride] of the
    strided side (stride 1 without a stride argument); for any other group
    it does nothing.  The host build returns a default [device_event]. *)
Theorem async_work_group_copy_by_build
    (dataT : Type) (d : dimensions) (g : group_base) (r : copy_request)
    (w : world dataT) :
  async_work_group_copy device_build d g r w
  = Ok (device_event_of (hook_call r),
        mk_world (mem w) (moves w) (delegated w ++ [hook_call r]))
  /\ transfer_is_delegated device_build d g r w
  /\ exists w',
       async_work_group_copy host_build d g r w = Ok (device_event_default, w')
       /\ w' = (if group_id_is_zero d g then apply_moves (host_moves r) w
                else w)
       /\ moves w'
          = moves w ++ (if group_id_is_zero d g then host_moves r else [])
       /\ delegated w' = delegated w.
Proof.
  split; [destruct r; reflexivity |]. split.
  { exists (device_event_of (hook_call r)),
      (mk_world (mem w) (moves w) (delegated w ++ [hook_call r])).
    split; [destruct r; reflexivity |]. cbn. repeat split.
    exists (hook_call r). reflexivity. }
  eexists. split; [| split; [reflexivity |]].
  - destruct r; cbn [async_work_group_copy async_work_group_copy_to_local
                       async_work_group_copy_to_global].
    + apply host_copy_to_local_strided_ok.
    + apply host_copy_to_global_strided_ok.
    + apply host_copy_to_local_strided_ok.
    + apply host_copy_to_global_strided_ok.
  - destruct (group_id_is_zero d g).
    + apply apply_moves_log.
    + rewrite app_nil_r. auto.
Qed.

(** Delegation does not hold for every call: on the host build, for the
    group with id zero, the library itself moves the two elements, changes
    the destination and calls no hook. *)
Lemma async_work_group_copy_host_moves_elements :
  match async_work_group_copy host_build D1 first_group
          (copy_to_local (mk_local_ptr 10) (mk_global_ptr 0) 2) identity_world
  with
  | Ok (ev, w') =>
      ev = device_event_default
      /\ moves w' = [mk_element_move 10 0; mk_element_move 11 1]
      /\ delegated w' = []
      /\ mem w' 10 = 0 /\ mem w' 11 = 1
  | Fail _ => False
  end
  /\ mem identity_world 10 = 10
  /\ mem identity_world 11 = 11
  /\ ~ transfer_is_delegated host_build D1 first_group
        (copy_to_local (mk_local_ptr 10) (mk_global_ptr 0) 2) identity_world.
Proof.
  split; [cbn; repeat split |]. split; [reflexivity |]. split; [reflexivity |].
  intros (ev & w' & Hrun & Hmoves & _).
  inversion Hrun; subst w'. discriminate Hmoves.
Qed.

(** * Further properties of the index operators *)

Lemma idx_idx_total {d : dimensions} {C1 C2 : Child} (f : Z -> Z -> Z)
    (a : index_array_operators d C1) (b : index_array_operators d C2) :
  COMPUTECPP_IDX_IDX_OPERATOR (fun x y => Ok (f x y)) a b
  = Ok (IndexArrayOperators.of_index_array
          (leading d (default_fill (index_array_ops_results C1 C2))
             (pointwise f (IndexArrayOperators.to_index_array a)
                (IndexArrayOperators.to_index_array b)))).
Proof.
  destruct a as [[[a0 a1 a2]]], b as [[[b0 b1 b2]]].
  destruct d, C1, C2; reflexivity.
Qed.

Lemma arithmetic_operator_closed_form_aux
    (d : dimensions) (C1 C2 : Child) (op : arithmetic)
    (a : index_array_operators d C1) (b : index_array_operators d C2) :
  operator_arithmetic op a b
  = Ok (IndexArrayOperators.of_index_array
          (leading d (default_fill (index_array_ops_results C1 C2))
             (pointwise (arithmetic_eval op)
                (IndexArrayOperators.to_index_array a)
                (IndexArrayOperators.to_index_array b)))).
Proof. apply idx_idx_total. Qed.

(** X1. The operators [+], [-], [*], [&], [|] and [^] of two index objects
    never fail; the result holds [a[i] op b[i]] (in [size_t]) in its first
    [d] elements and the default of the result class, 1 for a [range] and 0
    for an [id], in the others, whatever the operands hold there. *)
Theorem arithmetic_operator_closed_form
    (d : dimensions) (C1 C2 : Child) (op : arithmetic)
    (a : index_array_operators d C1) (b : index_array_operators d C2) :
  operator_arithmetic op a b
  = Ok (IndexArrayOperators.of_index_array
          (leading d (default_fill (index_array_ops_results C1 C2))
             (pointwise (arithmetic_eval op)
                (IndexArrayOperators.to_index_array a)
                (IndexArrayOperators.to_index_array b)))).
Proof.
  unfold operator_arithmetic.
  destruct a as [[[a0 a1 a2]]], b as [[[b0 b1 b2]]].
  destruct d, C1, C2; reflexivity.
Qed.

Lemma has_zero_element_dec (d : dimensions) (a : index_array) :
  has_zero_element d a \/ ~ has_zero_element d a.
Proof. destruct a as [a0 a1 a2], d; cbn; lia. Qed.

(** X2. [operator/] and [operator%] of two index objects divide by zero
    exactly when one of the first [d] elements of the divisor is zero;
    otherwise they return the quotients, or remainders, of the first [d]
    elements over the default padding.  The elements of the divisor past
    the dimension count are never used, so the zero padding of an [id] does
    no harm. *)
Theorem division_fails_on_zero_element
    (d : dimensions) (C1 C2 : Child)
    (a : index_array_operators d C1) (b : index_array_operators d C2) :
  (operator_div a b = Fail DivisionByZero
   <-> has_zero_element d (IndexArrayOperators.to_index_array b))
  /\ (operator_rem a b = Fail DivisionByZero
      <-> has_zero_element d (IndexArrayOperators.to_index_array b))
  /\ (has_zero_element d (IndexArrayOperators.to_index_array b)
      \/ operator_div a b
         = Ok (IndexArrayOperators.of_index_array
                 (leading d (default_fill (index_array_ops_results C1 C2))
                    (pointwise Z.div
                       (IndexArrayOperators.to_index_array a)
                       (IndexArrayOperators.to_index_array b))))
         /\ operator_rem a b
            = Ok (IndexArrayOperators.of_index_array
                    (leading d (default_fill (index_array_ops_results C1 C2))
                       (pointwise Z.modulo
                          (IndexArrayOperators.to_index_array a)
                          (IndexArrayOperators.to_index_array b))))).
Proof.
  destruct a as [[[a0 a1 a2]]], b as [[[b0 b1 b2]]].
  unfold operator_div, operator_rem.
  destruct d, C1, C2; cbn; unfold size_t_div, size_t_rem;
    repeat match goal with
           | |- context [?x =? 0] => destruct (Z.eqb_spec x 0)
           end; cbn;
    (split; [split; [intros H; try discriminate H; tauto
                    | intros H; try reflexivity; exfalso; tauto] |]);
    (split; [split; [intros H; try discriminate H; tauto
                    | intros H; try reflexivity; exfalso; tauto] |]);
    tauto.
Qed.

Lemma is_equal_spec (d : dimensions) (a b : index_array) :
  IndexArrayOperators.is_equal d a b = true
  <-> leading d 0 a = leading d 0 b.
Proof.
  destruct a as [a0 a1 a2], b as [b0 b1 b2].
  unfold IndexArrayOperators.is_equal.
  destruct d; cbn; rewrite ?andb_true_iff, ?Z.eqb_eq;
    (split; [intros H; f_equal; tauto | intros H; inversion H; auto]).
Qed.

(** X3. [operator==] of two index objects of one type holds exactly when
    their first [d] elements agree; the elements past the dimension count
    are not looked at.  It is reflexive, symmetric and transitive. *)
Theorem index_equality_compares_leading_elements
    (d : dimensions) (C : Child) (a b c : index_array_operators d C) :
  (IndexArrayOperators.eqb a b = true
   <-> forall i : N, (i < dim_N d)%N -> element a i = element b i)
  /\ IndexArrayOperators.eqb a a = true
  /\ IndexArrayOperators.eqb a b = IndexArrayOperators.eqb b a
  /\ (IndexArrayOperators.eqb a b = true ->
      IndexArrayOperators.eqb b c = true ->
      IndexArrayOperators.eqb a c = true).
Proof.
  unfold IndexArrayOperators.eqb.
  destruct a as [[[a0 a1 a2]]], b as [[[b0 b1 b2]]], c as [[[c0 c1 c2]]].
  cbn [IndexArrayOperators.to_index_array IndexArrayBase.to_index_array
       as_base base_m_idx].
  split; [| split; [apply is_equal_refl | split]].
  - rewrite is_equal_spec. split.
    + intros H i Hi. destruct d; cbn in H, Hi; inversion H; subst;
        assert (H3 : (i < 3)%N) by lia;
        destruct (dimension_cases i H3) as [-> | [-> | ->]];
        try lia; reflexivity.
    + intros H. pose proof (H 0%N) as H0. pose proof (H 1%N) as H1.
      pose proof (H 2%N) as H2. cbn in H0, H1, H2.
      destruct d; cbn in *; f_equal;
        first [apply H0 | apply H1 | apply H2]; lia.
  - unfold IndexArrayOperators.is_equal.
    destruct d; cbn; rewrite ?(Z.eqb_sym a0), ?(Z.eqb_sym a1),
      ?(Z.eqb_sym a2); reflexivity.
  - rewrite !is_equal_spec. intros H1 H2. congruence.
Qed.

Lemma wrap_add_sub (a b : Z) :
  is_size_t a -> size_t_sub (SizeT.add a b) b = a.
Proof.
  intros H. unfold size_t_sub, SizeT.add, SizeT.wrap.
  rewrite Zminus_mod_idemp_l. replace (a + b - b) with a by lia.
  apply Z.mod_small. exact H.
Qed.

(** X4. Adding an index object and subtracting it again gives back an
    object equal to the first, for ranges and for ids, as long as the first
    [d] elements of that object fit [size_t]: the wrap-around of the sum is
    undone by the wrap-around of the difference. *)
Theorem add_then_subtract_round_trip
    (d : dimensions) (a b : range d) (i j : sycl_id d) :
  (forall k : N, (k < dim_N d)%N -> is_size_t (element a k)) ->
  (forall k : N, (k < dim_N d)%N -> is_size_t (element i k)) ->
  (exists s r : range d,
      operator_arithmetic op_add a b = Ok s
      /\ operator_arithmetic op_sub s b = Ok r
      /\ IndexArrayOperators.eqb r a = true)
  /\ (exists s r : sycl_id d,
         operator_arithmetic op_add i j = Ok s
         /\ operator_arithmetic op_sub s j = Ok r
         /\ IndexArrayOperators.eqb r i = true).
Proof.
  intros Ha Hi.
  pose proof (Ha 0%N) as Ha0. pose proof (Ha 1%N) as Ha1.
  pose proof (Ha 2%N) as Ha2.
  pose proof (Hi 0%N) as Hi0. pose proof (Hi 1%N) as Hi1.
  pose proof (Hi 2%N) as Hi2.
  destruct a as [[[a0 a1 a2]]], b as [[[b0 b1 b2]]],
    i as [[[i0 i1 i2]]], j as [[[j0 j1 j2]]].
  cbn in Ha0, Ha1, Ha2, Hi0, Hi1, Hi2.
  split; do 2 eexists;
    (split; [apply arithmetic_operator_closed_form_aux |]);
    (split; [apply arithmetic_operator_closed_form_aux |]);
    unfold IndexArrayOperators.eqb; rewrite is_equal_spec;
    destruct d; unfold pointwise;
    cbn [leading arithmetic_eval m_idx0 m_idx1 m_idx2
         IndexArrayOperators.to_index_array IndexArrayBase.to_index_array
         IndexArrayOperators.of_index_array IndexArrayBase.of_index_array
         as_base base_m_idx dim_N] in *;
    rewrite ?wrap_add_sub by (first [apply Ha0 | apply Ha1 | apply Ha2
                                    | apply Hi0 | apply Hi1 | apply Hi2]; lia);
    reflexivity.
Qed.

Lemma assignment_macro_total {d : dimensions} {C : Child} (f : Z -> Z -> Z)
    (this rhs : index_array_operators d C) :
  COMPUTECPP_IDX_ASSIGNMENT_OPERATOR (fun l r => Ok (f l r)) this rhs
  = Ok (IndexArrayOperators.of_index_array
          (overlay d
             (pointwise f (IndexArrayOperators.to_index_array this)
                (IndexArrayOperators.to_index_array rhs))
             (IndexArrayOperators.to_index_array this))).
Proof.
  destruct this as [[[a0 a1 a2]]], rhs as [[[b0 b1 b2]]].
  destruct d; reflexivity.
Qed.

Lemma scalar_assignment_macro_total {d : dimensions} {C : Child}
    (f : Z -> Z -> Z) (this : index_array_operators d C) (rhs : Z) :
  COMPUTECPP_IDX_SCALAR_ASSIGNMENT_OPERATOR (fun l r => Ok (f l r)) this rhs
  = Ok (IndexArrayOperators.of_index_array
          (overlay d
             (pointwise f (IndexArrayOperators.to_index_array this)
                (mk_index_array rhs rhs rhs))
             (IndexArrayOperators.to_index_array this))).
Proof.
  destruct this as [[[a0 a1 a2]]]. destruct d; reflexivity.
Qed.

Lemma scalar_macro_total {d : dimensions} {C : Child} (f : Z -> Z -> Z)
    (a : index_array_operators d C) (b : Z) :
  COMPUTECPP_IDX_SCALAR_OPERATOR (fun x y => Ok (f x y)) a b
  = Ok (IndexArrayOperators.of_index_array
          (leading d (default_fill C)
             (pointwise f (IndexArrayOperators.to_index_array a)
                (mk_index_array b b b))))
  /\ COMPUTECPP_SCALAR_IDX_OPERATOR (fun x y => Ok (f x y)) b a
     = Ok (IndexArrayOperators.of_index_array
             (leading d (default_fill C)
                (pointwise f (mk_index_array b b b)
                   (IndexArrayOperators.to_index_array a)))).
Proof.
  destruct a as [[[a0 a1 a2]]]. destruct d, C; split; reflexivity.
Qed.

Lemma is_equal_overlay_leading (d : dimensions) (fill : Z)
    (new old : index_array) :
  IndexArrayOperators.is_equal d (overlay d new old) (leading d fill new)
  = true.
Proof.
  apply is_equal_spec. destruct new, old, d; reflexivity.
Qed.

(** X5. [operator=] of an index object copies the first [d] elements of the
    right-hand side and leaves the other elements of the left-hand side as
    they were; the assigned object then compares equal to the right-hand
    side. *)
Theorem assignment_copies_leading_elements
    (d : dimensions) (C : Child) (this rhs : index_array_operators d C) :
  exists r : index_array_operators d C,
    operator_assign this rhs = Ok r
    /\ IndexArrayOperators.to_index_array r
       = overlay d (IndexArrayOperators.to_index_array rhs)
           (IndexArrayOperators.to_index_array this)
    /\ IndexArrayOperators.eqb r rhs = true.
Proof.
  eexists. split; [exact (assignment_macro_total (fun _ r => r) this rhs) |].
  destruct this as [[[a0 a1 a2]]], rhs as [[[b0 b1 b2]]].
  split; [destruct d; reflexivity |].
  unfold IndexArrayOperators.eqb, IndexArrayOperators.is_equal.
  destruct d; cbn; rewrite ?Z.eqb_refl; reflexivity.
Qed.

Lemma compound_of_scalar_eval (op : scalar_arithmetic) :
  arithmetic_eval (compound_of_scalar op) = scalar_arithmetic_eval op.
Proof. destruct op; reflexivity. Qed.

(** X6. A compound assignment [a op= b] leaves in [a] an object that
    compares equal to the value of [a op b] and, unlike [a op b], keeps the
    elements of [a] past the dimension count: with an index object of the
    class of [a] on the right for [+=], [-=], [*=], [&=], [|=] and [^=], and
    with a [size_t] on the right for the five of them whose operator the
    header also defines with a [size_t], [+=], [-=], [*=], [|=] and [^=].
    Every one of the six with a [size_t] on the right, [&=] included,
    stores [a[i] op s] in the first [d] elements and keeps the others. *)
Theorem compound_assignment_agrees_with_operator
    (d : dimensions) (C : Child) (op : arithmetic) (sop : scalar_arithmetic)
    (a b : range d) (i j : sycl_id d) (c : index_array_operators d C)
    (s : Z) :
  (exists r v : range d,
      operator_compound op a b = Ok r
      /\ operator_arithmetic op a b = Ok v
      /\ IndexArrayOperators.eqb r v = true
      /\ IndexArrayOperators.to_index_array r
         = overlay d (IndexArrayOperators.to_index_array v)
             (IndexArrayOperators.to_index_array a))
  /\ (exists r v : sycl_id d,
         operator_compound op i j = Ok r
         /\ operator_arithmetic op i j = Ok v
         /\ IndexArrayOperators.eqb r v = true
         /\ IndexArrayOperators.to_index_array r
            = overlay d (IndexArrayOperators.to_index_array v)
                (IndexArrayOperators.to_index_array i))
  /\ (exists r v : index_array_operators d C,
         operator_compound_scalar (compound_of_scalar sop) c s = Ok r
         /\ operator_arithmetic_scalar sop c s = Ok v
         /\ IndexArrayOperators.eqb r v = true
         /\ IndexArrayOperators.to_index_array r
            = overlay d (IndexArrayOperators.to_index_array v)
                (IndexArrayOperators.to_index_array c))
  /\ (exists r : index_array_operators d C,
         operator_compound_scalar op c s = Ok r
         /\ IndexArrayOperators.to_index_array r
            = overlay d
                (pointwise (arithmetic_eval op)
                   (IndexArrayOperators.to_index_array c)
                   (mk_index_array s s s))
                (IndexArrayOperators.to_index_array c)).
Proof.
  split; [| split; [| split]].
  - do 2 eexists.
    split; [apply assignment_macro_total |].
    split; [apply arithmetic_operator_closed_form_aux |].
    split; [apply is_equal_overlay_leading |].
    destruct a as [[[a0 a1 a2]]], b as [[[b0 b1 b2]]], d; reflexivity.
  - do 2 eexists.
    split; [apply assignment_macro_total |].
    split; [apply arithmetic_operator_closed_form_aux |].
    split; [apply is_equal_overlay_leading |].
    destruct i as [[[a0 a1 a2]]], j as [[[b0 b1 b2]]], d; reflexivity.
  - do 2 eexists.
    split; [apply scalar_assignment_macro_total |].
    split; [apply scalar_macro_total |].
    rewrite compound_of_scalar_eval.
    split; [apply is_equal_overlay_leading |].
    destruct c as [[[a0 a1 a2]]], d; reflexivity.
  - eexists. split; [apply scalar_assignment_macro_total |].
    destruct c as [[[a0 a1 a2]]], d; reflexivity.
Qed.

Lemma scalar_arithmetic_eval_comm (op : scalar_arithmetic) (x y : Z) :
  commutative_operator op = true ->
  scalar_arithmetic_eval op x y = scalar_arithmetic_eval op y x.
Proof.
  destruct op; cbn; intros H; try discriminate H;
    unfold SizeT.add, SizeT.mul.
  - f_equal. lia.
  - f_equal. lia.
  - apply Z.lor_comm.
  - apply Z.lxor_comm.
Qed.

(** X7. The operators [+], [-], [*], [|] and [^] between an index object
    and a [size_t] apply the scalar to each of the first [d] elements and
    leave the default of the class in the others.  For [+], [*], [|] and
    [^] the scalar may stand on either side: [s op a] and [a op s] return
    the same object. *)
Theorem scalar_operator_closed_form
    (d : dimensions) (C : Child) (op : scalar_arithmetic)
    (a : index_array_operators d C) (s : Z) :
  operator_arithmetic_scalar op a s
  = Ok (IndexArrayOperators.of_index_array
          (leading d (default_fill C)
             (pointwise (scalar_arithmetic_eval op)
                (IndexArrayOperators.to_index_array a)
                (mk_index_array s s s))))
  /\ operator_scalar_arithmetic op s a
     = Ok (IndexArrayOperators.of_index_array
             (leading d (default_fill C)
                (pointwise (scalar_arithmetic_eval op) (mk_index_array s s s)
                   (IndexArrayOperators.to_index_array a))))
  /\ (if commutative_operator op
      then operator_scalar_arithmetic op s a = operator_arithmetic_scalar op a s
      else True).
Proof.
  destruct (scalar_macro_total (scalar_arithmetic_eval op) a s) as [H1 H2].
  unfold operator_arithmetic_scalar, operator_scalar_arithmetic.
  split; [exact H1 | split; [exact H2 |]].
  destruct (commutative_operator op) eqn:Hc; [| exact I].
  rewrite H1, H2. destruct a as [[[a0 a1 a2]]]. unfold pointwise. cbn.
  rewrite !(scalar_arithmetic_eval_comm op s) by exact Hc. reflexivity.
Qed.

(** X8. The object a relational operator returns holds, past the dimension
    count, the default of its class: 1 for a [range] and 0 for an [id],
    whatever the operands hold there.  The first [d] elements are the 0 or
    1 of each comparison. *)
Theorem relational_operator_closed_form
    (d : dimensions) (C : Child) (op : relational)
    (a b : index_array_operators d C) :
  operator_relational op a b
  = Ok (IndexArrayOperators.of_index_array
          (leading d (default_fill C)
             (pointwise (fun x y => SizeT.of_bool (relational_eval op x y))
                (IndexArrayOperators.to_index_array a)
                (IndexArrayOperators.to_index_array b)))).
Proof.
  destruct a as [[[a0 a1 a2]]], b as [[[b0 b1 b2]]].
  destruct d, C; reflexivity.
Qed.

(** * Further properties of ranges, ids and groups *)

(** X9. For a range built from an index array whose first element fits
    [size_t], [size()] is the element count [get_count_impl] of the index
    array the range holds: the padding of the constructor makes the two
    agree in every dimension count. *)
Theorem range_size_is_element_count (d : dimensions) (a : index_array) :
  is_size_t (m_idx0 a) ->
  exists r : range d,
    Range.of_index_array d a = Ok r
    /\ Range.size d r
       = Ok (get_count_impl (IndexArrayOperators.to_index_array r)).
Proof.
  intros H0. rewrite range_of_index_array_ok. eexists.
  split; [reflexivity |]. destruct a as [a0 a1 a2]. cbn in H0.
  unfold get_count_impl, SizeT.mul.
  destruct d; cbn; f_equal;
    rewrite ?Z.mul_1_r; unfold SizeT.wrap;
    rewrite ?Zmod_mod; try reflexivity.
  symmetry. apply Z.mod_small. exact H0.
Qed.

(** X10. Converting a range to an id keeps the first [d] elements and pads
    with zeros: the id of [range<1>(x)], [range<2>(x, y)] or
    [range<3>(x, y, z)] is [id<1>(x)], [id<2>(x, y)] or [id<3>(x, y, z)]. *)
Theorem id_of_range_pads_with_zero (d : dimensions) (r : range d) (x y z : Z) :
  id_of_range d r
  = Ok (IndexArrayOperators.of_index_array
          (leading d 0 (IndexArrayOperators.to_index_array r)))
  /\ (r1 <- Range.ctor1 x ;; id_of_range D1 r1) = Id.ctor1 x
  /\ (r2 <- Range.ctor2 x y ;; id_of_range D2 r2) = Id.ctor2 x y
  /\ (r3 <- Range.ctor3 x y z ;; id_of_range D3 r3) = Id.ctor3 x y z.
Proof.
  destruct r as [[[r0 r1 r2]]].
  split; [destruct d; reflexivity | repeat split].
Qed.

Lemma padded_subscript (d : dimensions) (C : Child) (a : index_array)
    (dimension : N) :
  IndexArrayOperators.subscript
    (IndexArrayOperators.of_index_array (dims := d) (C := C)
       (leading d (default_fill C) a)) dimension
  = padded_element d (default_fill C) a dimension.
Proof.
  destruct a as [a0 a1 a2]. unfold padded_element.
  destruct dimension as [| p]; [destruct d; reflexivity |].
  destruct p as [p | p |]; [| | destruct d; reflexivity].
  - destruct p; try reflexivity; destruct d; reflexivity.
  - destruct p; try reflexivity; destruct d; reflexivity.
Qed.

(** X11. The accessors of a group by dimension, [get_id(dimension)],
    [get_global_range(dimension)], [get_local_range(dimension)] and
    [get_group_range(dimension)], return the stored element for a
    dimension below [d]; for a dimension from [d] up to 2 they return the
    padding, 0 for the id and 1 for a range, whatever the group stores
    there; from dimension 3 on the assertion of the subscript fails.
    [operator[]] takes a [size_t] and narrows it to [unsigned int], so it
    reads the id at the dimension modulo 2^32. *)
Theorem group_accessors_by_dimension
    (d : dimensions) (g : group_base) (dimension : N) :
  GroupAccessors.get_id_at d g dimension
  = padded_element d 0 (m_groupID g) dimension
  /\ GroupAccessors.get_global_range_at d g dimension
     = padded_element d 1 (m_globalRange g) dimension
  /\ GroupAccessors.get_local_range_at d g dimension
     = padded_element d 1 (m_localRange g) dimension
  /\ GroupAccessors.get_group_range_at d g dimension
     = padded_element d 1 (m_groupRange g) dimension
  /\ GroupAccessors.operator_subscript d g dimension
     = padded_element d 0 (m_groupID g) (dimension mod 2 ^ 32)%N.
Proof.
  unfold GroupAccessors.operator_subscript, GroupAccessors.get_id_at,
    GroupAccessors.get_global_range_at, GroupAccessors.get_local_range_at,
    GroupAccessors.get_group_range_at, GroupAccessors.get_group_range,
    Group.get_id, Group.get_global_range, Group.get_local_range,
    to_unsigned_int.
  rewrite !range_of_index_array_ok, !id_of_index_array_ok. cbn [rbind].
  repeat split.
  - apply (padded_subscript d id_child).
  - apply (padded_subscript d range_child).
  - apply (padded_subscript d range_child).
  - apply (padded_subscript d range_child).
  - apply (padded_subscript d id_child).
Qed.

(** X12. [is_zero_id()] is true exactly when the first [d] elements of the
    group id are zero; what the group stores past the dimension count does
    not matter. *)
Theorem is_zero_id_checks_leading_elements (d : dimensions) (g : group_base) :
  exists z : bool,
    Group.is_zero_id d g = Ok z
    /\ (z = true
        <-> forall i : N, (i < dim_N d)%N -> m_idx (m_groupID g) i = Some 0).
Proof.
  exists (group_id_is_zero d g). split; [apply is_zero_id_ok |].
  destruct g as [[i0 i1 i2] gr gl lr]. unfold group_id_is_zero.
  cbn [m_groupID m_idx0 m_idx1 m_idx2]. split.
  - intros H i Hi. assert (H3 : (i < 3)%N) by (destruct d; cbn in Hi; lia).
    destruct d; cbn in Hi; rewrite ?andb_true_iff, ?Z.eqb_eq in H;
      destruct (dimension_cases i H3) as [-> | [-> | ->]];
      try lia; cbn; f_equal; tauto.
  - intros H.
    assert (H0 : i0 = 0).
    { assert (E : Some i0 = Some 0) by (apply (H 0%N); destruct d; cbn; lia).
      injection E; auto. }
    destruct d; cbn; rewrite ?andb_true_iff, ?Z.eqb_eq.
    + exact H0.
    + assert (E : Some i1 = Some 0) by (apply (H 1%N); cbn; lia).
      injection E; auto.
    + assert (E1 : Some i1 = Some 0) by (apply (H 1%N); cbn; lia).
      assert (E2 : Some i2 = Some 0) by (apply (H 2%N); cbn; lia).
      injection E1; injection E2; auto.
Qed.

(** The items of the loop nest in closed form. *)
Lemma parallel_for_work_item_closed_form
    (d : dimensions) (g : group_base) (flexibleRange : range d) :
  local_range_nonzero d g ->
  let plr := leading d 1 (m_localRange g) in
  Group.parallel_for_work_item d g flexibleRange
  = Ok (map (fun '(x, y, z) =>
               work_item d (IndexArrayOperators.to_index_array flexibleRange)
                 (leading d 1 (m_globalRange g)) plr
                 (leading d 0
                    (pointwise SizeT.mul plr (leading d 0 (m_groupID g))))
                 (y mod m_idx1 plr) (z mod m_idx2 plr) x y z)
            (logical_indices
               (IndexArrayOperators.to_index_array flexibleRange))).
Proof.
  intros Hnz plr.
  destruct (local_range_elements_nonzero d g Hnz) as (Hl0 & Hl1 & Hl2).
  destruct (z_loop_ok d flexibleRange
              (IndexArrayOperators.of_index_array
                 (leading d 1 (m_globalRange g)))
              (IndexArrayOperators.of_index_array plr)
              (IndexArrayOperators.of_index_array
                 (leading d 0
                    (pointwise SizeT.mul plr (leading d 0 (m_groupID g)))))
              (Group.mk_loop_state
                 (IndexArrayOperators.of_index_array (mk_index_array 0 0 0)) [])
              Hl0 Hl1 Hl2) as (s' & Hrun & Hcalls).
  cbn [Group.calls app] in Hcalls.
  transitivity (Ok (A := list h_item_base) (Group.calls s'));
    [| f_equal; exact Hcalls].
  unfold Group.parallel_for_work_item, Group.get_global_range,
    Group.get_local_range, Group.get_id.
  rewrite !range_of_index_array_ok, id_of_index_array_ok. cbn [rbind].
  rewrite operator_mul_range_id_ok.
  unfold Id.default. rewrite operators_ctor_ok. cbn [rbind].
  rewrite (subscript_ok flexibleRange 2) by reflexivity. cbn [rbind].
  exact (f_equal (fun r => rbind r (fun s => Ok (Group.calls s))) Hrun).
Qed.

Lemma local_range_positive_nonzero (d : dimensions) (g : group_base) :
  local_range_positive d g -> local_range_nonzero d g.
Proof.
  intros H i Hi E. destruct (H i Hi) as (v & Hv & Hpos).
  rewrite E in Hv. injection Hv as <-. lia.
Qed.

Lemma local_range_positive_elements (d : dimensions) (g : group_base) :
  local_range_positive d g ->
  let plr := leading d 1 (m_localRange g) in
  0 < m_idx0 plr /\ 0 < m_idx1 plr /\ 0 < m_idx2 plr.
Proof.
  intros H. destruct g as [gid gr gl [l0 l1 l2]].
  assert (H0 : 0 < l0).
  { destruct (H 0%N) as (v & Hv & Hp); [destruct d; cbn; lia |].
    injection Hv as <-. exact Hp. }
  destruct d; cbn; repeat split; try lia.
  - destruct (H 1%N) as (v & Hv & Hp); [cbn; lia |].
    injection Hv as <-. exact Hp.
  - destruct (H 1%N) as (v & Hv & Hp); [cbn; lia |].
    injection Hv as <-. exact Hp.
  - destruct (H 2%N) as (v & Hv & Hp); [cbn; lia |].
    injection Hv as <-. exact Hp.
Qed.

(** X13. Whatever the flexible range, every item the host
    [parallel_for_work_item] hands to [func] has a physical local id inside
    the physical local range, provided the first [d] elements of the local
    range are positive: a logical range larger than the work group wraps
    around onto the real work items. *)
Theorem physical_local_id_stays_inside_local_range
    (d : dimensions) (g : group_base) (flexibleRange : range d) :
  local_range_positive d g ->
  exists items : list h_item_base,
    Group.parallel_for_work_item d g flexibleRange = Ok items
    /\ Forall (fun h => inside_range (physical_local_item h)
                        /\ item_range (physical_local_item h)
                           = leading d 1 (m_localRange g))
              items.
Proof.
  intros Hpos.
  pose proof (local_range_positive_nonzero d g Hpos) as Hnz.
  destruct (local_range_positive_elements d g Hpos) as (H0 & H1 & H2).
  eexists. split; [apply (parallel_for_work_item_closed_form d g _ Hnz) |].
  apply Forall_forall. intros h Hin. apply in_map_iff in Hin.
  destruct Hin as ([[x y] z] & <- & Hidx).
  apply in_logical_indices in Hidx.
  unfold inside_range, work_item.
  cbn [physical_local_item item_id item_range m_idx0 m_idx1 m_idx2].
  split; [| reflexivity].
  repeat split; apply Z.mod_pos_bound; assumption.
Qed.

(** X14. [parallel_for_work_item(func)], without a flexible range, runs
    over the local range of the group: provided its first [d] elements are
    positive, [func] is called once for each work item of the group, the
    product of those elements in number, and each item has the same
    logical and physical local id and range. *)
Theorem parallel_for_work_item_over_local_range
    (d : dimensions) (g : group_base) :
  local_range_positive d g ->
  exists items : list h_item_base,
    Group.parallel_for_work_item_local d g = Ok items
    /\ List.length items
       = (Z.to_nat (m_idx0 (leading d 1 (m_localRange g)))
          * Z.to_nat (m_idx1 (leading d 1 (m_localRange g)))
          * Z.to_nat (m_idx2 (leading d 1 (m_localRange g))))%nat
    /\ Forall (fun h => logical_local_item h = physical_local_item h) items.
Proof.
  intros Hpos.
  pose proof (local_range_positive_nonzero d g Hpos) as Hnz.
  unfold Group.parallel_for_work_item_local, Group.get_local_range.
  rewrite range_of_index_array_ok. cbn [rbind].
  eexists. split; [apply (parallel_for_work_item_closed_form d g _ Hnz) |].
  split.
  - rewrite length_map. apply length_logical_indices.
  - apply Forall_forall. intros h Hin. apply in_map_iff in Hin.
    destruct Hin as ([[x y] z] & <- & Hidx).
    apply in_logical_indices in Hidx.
    destruct g as [gid gr gl [l0 l1 l2]]. unfold work_item.
    cbn [logical_local_item physical_local_item].
    destruct d; cbn in Hidx |- *; f_equal; f_equal;
      try (apply Z.mod_small; lia);
      try (symmetry; apply Z.mod_small; lia);
      try (replace y with 0 by lia); try (replace z with 0 by lia);
      try reflexivity.
Qed.

(** X15. With a flexible range whose third extent is zero the host
    [parallel_for_work_item] never calls [func] and never divides, even for
    a group whose local range is zero; with a nonzero local range the same
    holds as soon as any of the three extents is zero. *)
Theorem empty_flexible_range_calls_nothing
    (d : dimensions) (g : group_base) (flexibleRange : range d) :
  element flexibleRange 2 = 0
  \/ (local_range_nonzero d g
      /\ (element flexibleRange 0 = 0 \/ element flexibleRange 1 = 0)) ->
  Group.parallel_for_work_item d g flexibleRange = Ok [].
Proof.
  intros [H2 | [Hnz H01]].
  - unfold Group.parallel_for_work_item, Group.get_global_range,
      Group.get_local_range, Group.get_id.
    rewrite !range_of_index_array_ok, id_of_index_array_ok. cbn [rbind].
    rewrite operator_mul_range_id_ok.
    unfold Id.default. rewrite operators_ctor_ok. cbn [rbind].
    rewrite (subscript_ok flexibleRange 2) by reflexivity. cbn [rbind].
    rewrite H2. reflexivity.
  - rewrite (parallel_for_work_item_closed_form d g _ Hnz). cbv zeta.
    f_equal.
    assert (E : logical_indices
                  (IndexArrayOperators.to_index_array flexibleRange) = []).
    { apply length_zero_iff_nil. rewrite length_logical_indices.
      destruct flexibleRange as [[[f0 f1 f2]]]. cbn in H01 |- *.
      destruct H01 as [-> | ->]; cbn; lia. }
    rewrite E. reflexivity.
Qed.

(** * Further properties of the host copy *)

Lemma apply_moves_cons {dataT : Type} (m : element_move)
    (l : list element_move) (w : world dataT) :
  apply_moves (m :: l) w
  = apply_moves l (assign_element (move_to m) (move_from m) w).
Proof. reflexivity. Qed.

Lemma apply_moves_frame {dataT : Type} (l : list element_move)
    (w : world dataT) (a : Z) :
  ~ In a (destinations l) -> mem (apply_moves l w) a = mem w a.
Proof.
  revert w. induction l as [| m l IH]; intros w Hn; [reflexivity |].
  rewrite apply_moves_cons, IH.
  - cbn. unfold mem_store. destruct (Z.eqb_spec a (move_to m)) as [E | _];
      [| reflexivity].
    exfalso. apply Hn. left. symmetry. exact E.
  - intros Hin. apply Hn. right. exact Hin.
Qed.

Lemma apply_moves_independent {dataT : Type} (l : list element_move)
    (w : world dataT) :
  moves_independent l ->
  forall m, In m l -> mem (apply_moves l w) (move_to m) = mem w (move_from m).
Proof.
  revert w. induction l as [| m0 l IH]; intros w [Hnd Hdisj] m Hin;
    [destruct Hin |].
  cbn in Hnd. apply NoDup_cons_iff in Hnd as [Hnotin Hnd].
  rewrite apply_moves_cons. destruct Hin as [<- | Hin].
  - rewrite apply_moves_frame by exact Hnotin.
    cbn. unfold mem_store. rewrite Z.eqb_refl. reflexivity.
  - rewrite IH; [| split; [exact Hnd | intros; apply Hdisj; right; assumption]
                 | exact Hin].
    cbn. unfold mem_store.
    destruct (Z.eqb_spec (move_from m) (move_to m0)) as [E | _];
      [| reflexivity].
    exfalso. apply (Hdisj m m0); [right; exact Hin | left; reflexivity | exact E].
Qed.

(** X16. On the host, for a group whose id is zero, every overload of
    [async_work_group_copy] whose destination elements are pairwise
    distinct and are none of its source elements leaves in each destination
    element the value its source element had before the call, and changes
    no other element of memory. *)
Theorem host_copy_moves_values
    (dataT : Type) (d : dimensions) (g : group_base) (r : copy_request)
    (w : world dataT) :
  group_id_is_zero d g = true ->
  moves_independent (host_moves r) ->
  exists w' : world dataT,
    async_work_group_copy host_build d g r w = Ok (device_event_default, w')
    /\ (forall m, In m (host_moves r) ->
          mem w' (move_to m) = mem w (move_from m))
    /\ (forall a, ~ In a (destinations (host_moves r)) -> mem w' a = mem w a).
Proof.
  intros Hz Hind. exists (apply_moves (host_moves r) w). split; [| split].
  - destruct r; cbn [async_work_group_copy async_work_group_copy_to_local
                       async_work_group_copy_to_global];
      first [ rewrite host_copy_to_local_strided_ok
            | rewrite host_copy_to_global_strided_ok ];
      rewrite Hz; reflexivity.
  - intros m Hin. apply apply_moves_independent; assumption.
  - intros a Hn. apply apply_moves_frame. exact Hn.
Qed.

Lemma host_copy_moves_values_witness :
  group_id_is_zero D1 first_group = true
  /\ moves_independent
       (host_moves (copy_to_local_strided (mk_local_ptr 10) (mk_global_ptr 0)
                      2 3))
  /\ exists w' : world Z,
       async_work_group_copy host_build D1 first_group
         (copy_to_local_strided (mk_local_ptr 10) (mk_global_ptr 0) 2 3)
         identity_world = Ok (device_event_default, w')
       /\ mem w' 10 = 0 /\ mem w' 11 = 3 /\ mem w' 12 = 12.
Proof.
  assert (Hz : group_id_is_zero D1 first_group = true) by reflexivity.
  assert (Hind : moves_independent
                   (host_moves (copy_to_local_strided (mk_local_ptr 10)
                                  (mk_global_ptr 0) 2 3))).
  { split.
    - cbn. repeat constructor; cbn; intuition discriminate.
    - intros m m' Hm Hm'. cbn in Hm, Hm'.
      destruct Hm as [<- | [<- | []]], Hm' as [<- | [<- | []]];
        cbn; discriminate. }
  split; [exact Hz | split; [exact Hind |]].
  destruct (host_copy_moves_values Z D1 first_group
              (copy_to_local_strided (mk_local_ptr 10) (mk_global_ptr 0) 2 3)
              identity_world Hz Hind) as (w' & Hrun & Hval & Hframe).
  exists w'. split; [exact Hrun |]. split; [| split].
  - apply (Hval (mk_element_move 10 0)). vm_compute. auto.
  - apply (Hval (mk_element_move 11 3)). vm_compute. auto.
  - apply (Hframe 12). vm_compute. intuition discriminate.
Defined.

(** * Access ranges *)

Lemma is_point_dimension_spec (a : access_range) (dim : N) :
  (dim < 3)%N ->
  exists p : bool,
    AccessRange.is_point_dimension a dim = Ok p
    /\ (p = true <-> point_dimension a dim).
Proof.
  intros H. destruct a as [[o0 o1 o2] [r0 r1 r2]].
  unfold AccessRange.is_point_dimension, point_dimension.
  destruct (dimension_cases dim H) as [-> | [-> | ->]]; cbn;
    match goal with
    | |- context [?r =? 1] => destruct (Z.eqb_spec r 1) as [-> | Hr]
    end; eexists; (split; [reflexivity |]);
    rewrite ?Z.eqb_eq; split;
      try (intros [E1 E2]; injection E1; injection E2; intros; subst;
           congruence);
      try (intros ->; split; reflexivity);
      try discriminate;
      try (intros [E1 E2]; injection E2; auto).
Qed.

(** X17. [access_range::num_dimensions()] answers 1, 2 or 3: 1 when the
    second and the third dimension are single points (extent 1 at offset
    0), 2 when only the third is, and 3 whenever the third is not, also
    when the second dimension is a single point. *)
Theorem num_dimensions_cases (a : access_range) :
  exists n : Z,
    AccessRange.num_dimensions a = Ok n
    /\ (n = 1 \/ n = 2 \/ n = 3)
    /\ (n = 1 <-> point_dimension a 1 /\ point_dimension a 2)
    /\ (n = 2 <-> ~ point_dimension a 1 /\ point_dimension a 2)
    /\ (n = 3 <-> ~ point_dimension a 2).
Proof.
  destruct (is_point_dimension_spec a 1 ltac:(reflexivity))
    as (p1 & E1 & H1).
  destruct (is_point_dimension_spec a 2 ltac:(reflexivity))
    as (p2 & E2 & H2).
  unfold AccessRange.num_dimensions. rewrite E1. cbn [rbind].
  destruct p1, p2; rewrite E2; cbn [rbind]; eexists;
    (split; [reflexivity |]);
    repeat match goal with
           | H : true = true <-> ?P |- _ =>
               let HP := fresh "HP" in
               assert (HP : P) by (apply H; reflexivity); clear H
           | H : false = true <-> ?P |- _ =>
               let HP := fresh "HP" in
               assert (HP : ~ P)
                 by (let X := fresh in
                     intros X; apply H in X; discriminate X);
               clear H
           end;
    (split; [lia |]);
    (split; [| split]); intuition (try lia; try discriminate).
Qed.

(** X18. The padding of the index types is the single point of an access
    range: the access range made of an [id<d>] as offset and a [range<d>]
    as range, both built from index arrays, needs at most [d] dimensions,
    whatever the index arrays hold past their first [d] elements. *)
Theorem access_range_of_padded_indices
    (d : dimensions) (accessOffset accessRange : index_array) :
  exists (o : sycl_id d) (r : range d) (n : Z),
    Id.of_index_array d accessOffset = Ok o
    /\ Range.of_index_array d accessRange = Ok r
    /\ AccessRange.num_dimensions
         (AccessRange.ctor (IndexArrayOperators.to_index_array o)
            (IndexArrayOperators.to_index_array r)) = Ok n
    /\ 1 <= n <= dim_value d.
Proof.
  rewrite id_of_index_array_ok, range_of_index_array_ok.
  exists (IndexArrayOperators.of_index_array (leading d 0 accessOffset)),
    (IndexArrayOperators.of_index_array (leading d 1 accessRange)).
  destruct accessOffset as [o0 o1 o2], accessRange as [r0 r1 r2].
  unfold AccessRange.num_dimensions, AccessRange.is_point_dimension.
  destruct d; cbn;
    repeat match goal with
           | |- context [?x =? ?y] => destruct (x =? y); cbn
           end;
    eexists;
    (split; [reflexivity | split; [reflexivity | split; [reflexivity | lia]]]).
Qed.

(** X19. [operator==] of two access ranges is true exactly when the two
    have the same offset and the same range in all three elements, and
    false otherwise; no assertion fails. *)
Theorem access_range_equality (a b : access_range) :
  exists e : bool,
    AccessRange.eqb a b = Ok e /\ (e = true <-> a = b).
Proof.
  destruct a as [[ao0 ao1 ao2] [ar0 ar1 ar2]],
    b as [[bo0 bo1 bo2] [br0 br1 br2]].
  unfold AccessRange.eqb, AccessRange.same_element. cbn.
  repeat match goal with
         | |- context [?x =? ?y] =>
             destruct (Z.eqb_spec x y) as [-> | ?]; cbn
         end;
    eexists; (split; [reflexivity |]);
    (split; [intros H; try discriminate H; reflexivity
            | intros H; inversion H; try congruence; reflexivity]).
Qed.

(** * Explicit pointers *)

(** X20. For pointers whose address is not below the null address, the
    comparisons of an explicit pointer with [nullptr], which the macro
    writes out case by case, give what the comparison of the two addresses
    gives with the null pointer as the lowest address; and [>=] and [<=]
    between two pointers, written as equal or greater and equal or less,
    are the orders of the addresses. *)
Theorem explicit_pointer_order_is_address_order
    (explicit_ptr : Type) (get : explicit_ptr -> Z) (p q : explicit_ptr) :
  0 <= get p ->
  ExplicitPointer.ge explicit_ptr get p q = (get p >=? get q)
  /\ ExplicitPointer.le explicit_ptr get p q = (get p <=? get q)
  /\ ExplicitPointer.gt_null explicit_ptr get p = (get p >? 0)
  /\ ExplicitPointer.null_gt explicit_ptr p = (0 >? get p)
  /\ ExplicitPointer.lt_null explicit_ptr p = (get p <? 0)
  /\ ExplicitPointer.null_lt explicit_ptr get p = (0 <? get p)
  /\ ExplicitPointer.ge_null explicit_ptr p = (get p >=? 0)
  /\ ExplicitPointer.null_ge explicit_ptr get p = (0 >=? get p)
  /\ ExplicitPointer.le_null explicit_ptr get p = (get p <=? 0)
  /\ ExplicitPointer.null_le explicit_ptr p = (0 <=? get p).
Proof.
  intros Hp.
  unfold ExplicitPointer.ge, ExplicitPointer.le, ExplicitPointer.gt_null,
    ExplicitPointer.null_gt, ExplicitPointer.lt_null, ExplicitPointer.null_lt,
    ExplicitPointer.ge_null, ExplicitPointer.null_ge, ExplicitPointer.le_null,
    ExplicitPointer.null_le, ExplicitPointer.ne_null, ExplicitPointer.null_ne,
    ExplicitPointer.null_eq, ExplicitPointer.eq_null, ExplicitPointer.eq,
    ExplicitPointer.gt, ExplicitPointer.lt, ExplicitPointer.nullptr.
  rewrite !Z.gtb_ltb, !Z.geb_leb.
  repeat split;
    repeat match goal with
           | |- context [?x =? ?y] => destruct (Z.eqb_spec x y)
           | |- context [?x <? ?y] => destruct (Z.ltb_spec x y)
           | |- context [?x <=? ?y] => destruct (Z.leb_spec x y)
           end; cbn; try reflexivity; lia.
Qed.

Lemma explicit_pointer_order_is_address_order_witness :
  0 <= global_elem (mk_global_ptr 8)
  /\ ExplicitPointer.ge global_ptr global_elem
       (mk_global_ptr 8) (mk_global_ptr 3) = true
  /\ ExplicitPointer.gt_null global_ptr global_elem (mk_global_ptr 8) = true
  /\ ExplicitPointer.null_ge global_ptr global_elem (mk_global_ptr 8) = false.
Proof.
  split; [cbn; lia |].
  destruct (explicit_pointer_order_is_address_order global_ptr global_elem
              (mk_global_ptr 8) (mk_global_ptr 3))
    as (H1 & _ & H3 & _ & _ & _ & _ & H8 & _); [cbn; lia |].
  rewrite H1, H3, H8. repeat split.
Defined.

(** * The reduction example *)

Lemma land_pred_power (k : Z) : 0 <= k -> Z.land (2 ^ k) (2 ^ k - 1) = 0.
Proof.
  intros Hk. replace (2 ^ k - 1) with (Z.ones k)
    by (rewrite Z.ones_equiv; lia).
  rewrite Z.land_ones by exact Hk. apply Z.mod_same.
  apply Z.pow_nonzero; lia.
Qed.

Lemma land_pred_zero_power (x : Z) :
  0 < x -> Z.land x (x - 1) = 0 -> x = 2 ^ Z.log2 x.
Proof.
  intros Hx Hland.
  destruct (Z.log2_spec x Hx) as [Hlo Hhi].
  destruct (Z.eq_dec x (2 ^ Z.log2 x)) as [E | Hne]; [exact E | exfalso].
  assert (Hk : 0 <= Z.log2 x) by apply Z.log2_nonneg.
  assert (Hlog : Z.log2 (x - 1) = Z.log2 x).
  { apply Z.log2_unique; [exact Hk | lia]. }
  assert (Hb1 : Z.testbit x (Z.log2 x) = true) by (apply Z.bit_log2; lia).
  assert (Hb2 : Z.testbit (x - 1) (Z.log2 x) = true).
  { rewrite <- Hlog. apply Z.bit_log2.
    assert (0 < 2 ^ Z.log2 x) by (apply Z.pow_pos_nonneg; lia). lia. }
  assert (Hb : Z.testbit (Z.land x (x - 1)) (Z.log2 x) = true).
  { rewrite Z.land_spec, Hb1, Hb2. reflexivity. }
  rewrite Hland, Z.bits_0 in Hb. discriminate Hb.
Qed.

(** X21. For an [unsigned int] [x], [isPowerOfTwo(x)] is true exactly when
    [x] is one of the powers 2^0, ..., 2^31; it is false for 0. *)
Theorem isPowerOfTwo_spec (x : Z) :
  0 <= x < 2 ^ 32 ->
  (isPowerOfTwo x = true <-> exists k, 0 <= k < 32 /\ x = 2 ^ k).
Proof.
  intros Hx. unfold isPowerOfTwo, unsigned_int_wrap.
  rewrite andb_true_iff, negb_true_iff, Z.eqb_neq, Z.eqb_eq. split.
  - intros [Hne Hland].
    rewrite Z.mod_small in Hland by lia.
    exists (Z.log2 x). split.
    + split; [apply Z.log2_nonneg |].
      apply Z.log2_lt_pow2; lia.
    + apply land_pred_zero_power; [lia | exact Hland].
  - intros (k & Hk & ->).
    assert (0 < 2 ^ k) by (apply Z.pow_pos_nonneg; lia).
    split; [lia |].
    rewrite Z.mod_small by lia.
    apply land_pred_power. lia.
Qed.

Lemma isPowerOfTwo_spec_witness :
  0 <= 1024 < 2 ^ 32
  /\ (isPowerOfTwo 1024 = true <-> exists k, 0 <= k < 32 /\ 1024 = 2 ^ k).
Proof.
  split; [lia |]. apply (isPowerOfTwo_spec 1024). lia.
Defined.

(** * Atomic minimum and maximum *)

Lemma fetch_min_loop_spec (schedule : list interference) (operand : Z) :
  forall old : Z,
    let (r, c) := Atomic.fetch_min_loop schedule operand old in
    c = Z.min r operand /\ (r = old \/ In (stored r) schedule).
Proof.
  induction schedule as [| e rest IH]; intros old; cbn [Atomic.fetch_min_loop].
  - destruct (Z.ltb_spec old operand); split; auto; lia.
  - destruct (Z.ltb_spec old operand); [split; auto; lia |].
    destruct e as [| | v].
    + split; auto; lia.
    + specialize (IH old).
      destruct (Atomic.fetch_min_loop rest operand old) as [r c].
      destruct IH as [Hc Hr]. split; [exact Hc |].
      destruct Hr; [left | right; right]; assumption.
    + destruct (Z.eqb_spec v old); [split; auto; lia |].
      specialize (IH v).
      destruct (Atomic.fetch_min_loop rest operand v) as [r c].
      destruct IH as [Hc Hr]. split; [exact Hc |].
      destruct Hr as [-> | Hr]; right; [left; reflexivity | right; exact Hr].
Qed.

Lemma fetch_max_loop_spec (schedule : list interference) (operand : Z) :
  forall old : Z,
    let (r, c) := Atomic.fetch_max_loop schedule operand old in
    c = Z.max r operand /\ (r = old \/ In (stored r) schedule).
Proof.
  induction schedule as [| e rest IH]; intros old; cbn [Atomic.fetch_max_loop].
  - destruct (Z.ltb_spec operand old); split; auto; lia.
  - destruct (Z.ltb_spec operand old); [split; auto; lia |].
    destruct e as [| | v].
    + split; auto; lia.
    + specialize (IH old).
      destruct (Atomic.fetch_max_loop rest operand old) as [r c].
      destruct IH as [Hc Hr]. split; [exact Hc |].
      destruct Hr; [left | right; right]; assumption.
    + destruct (Z.eqb_spec v old); [split; auto; lia |].
      specialize (IH v).
      destruct (Atomic.fetch_max_loop rest operand v) as [r c].
      destruct IH as [Hc Hr]. split; [exact Hc |].
      destruct Hr as [-> | Hr]; right; [left; reflexivity | right; exact Hr].
Qed.

(** X22. However the other threads interfere and however often the weak
    compare-exchange fails, the host [fetch_min] returns a value the atomic
    object held, its content at the call or a value another thread stored
    since, and when it returns the object holds the minimum of that value
    and the operand.  Without stores of other threads it returns the
    content at the call. *)
Theorem fetch_min_leaves_minimum
    (schedule : list interference) (operand content : Z) :
  exists r c : Z,
    Atomic.fetch_min schedule operand content = (r, c)
    /\ c = Z.min r operand
    /\ (r = content \/ In (stored r) schedule)
    /\ ((forall v, ~ In (stored v) schedule) -> r = content).
Proof.
  unfold Atomic.fetch_min.
  pose proof (fetch_min_loop_spec schedule operand content) as H.
  destruct (Atomic.fetch_min_loop schedule operand content) as [r c].
  destruct H as [Hc Hr]. exists r, c.
  split; [reflexivity | split; [exact Hc | split; [exact Hr |]]].
  intros Hn. destruct Hr as [E | Hin]; [exact E |].
  exfalso. exact (Hn r Hin).
Qed.

(** X23. The same for [fetch_max], with the maximum. *)
Theorem fetch_max_leaves_maximum
    (schedule : list interference) (operand content : Z) :
  exists r c : Z,
    Atomic.fetch_max schedule operand content = (r, c)
    /\ c = Z.max r operand
    /\ (r = content \/ In (stored r) schedule)
    /\ ((forall v, ~ In (stored v) schedule) -> r = content).
Proof.
  unfold Atomic.fetch_max.
  pose proof (fetch_max_loop_spec schedule operand content) as H.
  destruct (Atomic.fetch_max_loop schedule operand content) as [r c].
  destruct H as [Hc Hr]. exists r, c.
  split; [reflexivity | split; [exact Hc | split; [exact Hr |]]].
  intros Hn. destruct Hr as [E | Hin]; [exact E |].
  exfalso. exact (Hn r Hin).
Qed.

(** * Global ids *)

Lemma global_id_in_dimension (l gi G p : Z) :
  dimension_consistent l gi G -> 0 <= p < l ->
  0 <= SizeT.add (SizeT.mul l gi) p < G.
Proof.
  intros (Hl & Hgi & HG & Hmax) Hp.
  assert (0 <= l * gi) by nia.
  assert (l * gi + l <= G) by nia.
  unfold SizeT.add, SizeT.mul, SizeT.wrap.
  rewrite (Z.mod_small (l * gi)) by lia.
  rewrite Z.mod_small by lia. lia.
Qed.

Lemma group_consistent_positive (d : dimensions) (g : group_base) :
  group_consistent d g -> local_range_positive d g.
Proof.
  intros H i Hi. destruct g as [gid gr gl [l0 l1 l2]].
  unfold group_consistent, dimension_consistent in H. cbn in H.
  assert (H3 : (i < 3)%N) by (destruct d; cbn in Hi; lia).
  destruct (dimension_cases i H3) as [-> | [-> | ->]];
    destruct d; cbn in Hi; try lia; cbn; eexists;
    (split; [reflexivity | tauto]).
Qed.

(** X24. For a group that is consistent in its first [d] dimensions (a
    positive local range, and a group id whose work group lies inside a
    global range that fits [size_t]), every item the host
    [parallel_for_work_item] hands to [func] has its global id inside the
    global range, whatever the flexible range. *)
Theorem global_id_stays_inside_global_range
    (d : dimensions) (g : group_base) (flexibleRange : range d) :
  group_consistent d g ->
  exists items : list h_item_base,
    Group.parallel_for_work_item d g flexibleRange = Ok items
    /\ Forall (fun h => inside_range (global_item h)
                        /\ item_range (global_item h)
                           = leading d 1 (m_globalRange g))
              items.
Proof.
  intros Hc.
  pose proof (group_consistent_positive d g Hc) as Hpos.
  pose proof (local_range_positive_nonzero d g Hpos) as Hnz.
  destruct (local_range_positive_elements d g Hpos) as (H0 & H1 & H2).
  eexists. split; [apply (parallel_for_work_item_closed_form d g _ Hnz) |].
  apply Forall_forall. intros h Hin. apply in_map_iff in Hin.
  destruct Hin as ([[x y] z] & <- & _).
  split; [| reflexivity].
  pose proof (Z.mod_pos_bound x _ H0) as Hx.
  pose proof (Z.mod_pos_bound y _ H1) as Hy.
  pose proof (Z.mod_pos_bound z _ H2) as Hz.
  destruct g as [[i0 i1 i2] gr [G0 G1 G2] [l0 l1 l2]].
  unfold group_consistent in Hc. cbn in Hc.
  unfold inside_range, work_item, pointwise.
  destruct d;
    cbn [leading global_item item_id item_range m_idx0 m_idx1 m_idx2
         m_localRange m_groupID m_globalRange] in *.
  - pose proof (global_id_in_dimension _ _ _ _ Hc Hx).
    repeat split; lia.
  - destruct Hc as [Hc0 Hc1].
    pose proof (global_id_in_dimension _ _ _ _ Hc0 Hx).
    pose proof (global_id_in_dimension _ _ _ _ Hc1 Hy).
    repeat split; lia.
  - destruct Hc as (Hc0 & Hc1 & Hc2).
    pose proof (global_id_in_dimension _ _ _ _ Hc0 Hx).
    pose proof (global_id_in_dimension _ _ _ _ Hc1 Hy).
    pose proof (global_id_in_dimension _ _ _ _ Hc2 Hz).
    repeat split; lia.
Qed.

(** X25. Building a [range<d>] or an [id<d>] from an index array keeps the
    first [d] elements and replaces the others, by 1 in a range and by 0 in
    an id; building it again from the result changes nothing. *)
Theorem index_array_conversion_keeps_leading_elements
    (d : dimensions) (a : index_array) :
  Range.of_index_array d a
  = Ok (IndexArrayOperators.of_index_array (leading d 1 a))
  /\ Id.of_index_array d a
     = Ok (IndexArrayOperators.of_index_array (leading d 0 a))
  /\ Range.of_index_array d (leading d 1 a) = Range.of_index_array d a
  /\ Id.of_index_array d (leading d 0 a) = Id.of_index_array d a.
Proof. destruct a as [a0 a1 a2], d; repeat split. Qed.

(** * Instances *)

Lemma sample_group_local_range_positive : local_range_positive D2 sample_group.
Proof.
  intros i Hi. cbn in Hi.
  assert (Hc : i = 0%N \/ i = 1%N) by lia.
  destruct Hc as [-> | ->]; cbn; eexists; (split; [reflexivity | lia]).
Qed.

Lemma sample_group_consistent : group_consistent D2 sample_group.
Proof.
  unfold group_consistent, dimension_consistent, SizeT.modulus. cbn. lia.
Qed.

Lemma add_then_subtract_round_trip_witness :
  (forall k : N, (k < dim_N D1)%N -> is_size_t (element small_range k))
  /\ (forall k : N, (k < dim_N D1)%N -> is_size_t (element small_id k))
  /\ (exists s r : range D1,
         operator_arithmetic op_add small_range large_range = Ok s
         /\ operator_arithmetic op_sub s large_range = Ok r
         /\ IndexArrayOperators.eqb r small_range = true)
  /\ (exists s r : sycl_id D1,
         operator_arithmetic op_add small_id large_id = Ok s
         /\ operator_arithmetic op_sub s large_id = Ok r
         /\ IndexArrayOperators.eqb r small_id = true).
Proof.
  assert (Hr : forall k : N, (k < dim_N D1)%N ->
                 is_size_t (element small_range k)).
  { intros k Hk. cbn in Hk. assert (k = 0%N) as -> by lia.
    unfold is_size_t, SizeT.modulus. cbn. lia. }
  assert (Hi : forall k : N, (k < dim_N D1)%N ->
                 is_size_t (element small_id k)).
  { intros k Hk. cbn in Hk. assert (k = 0%N) as -> by lia.
    unfold is_size_t, SizeT.modulus. cbn. lia. }
  split; [exact Hr | split; [exact Hi |]].
  apply (add_then_subtract_round_trip D1 small_range large_range
           small_id large_id Hr Hi).
Defined.

Lemma range_size_is_element_count_witness :
  is_size_t (m_idx0 (mk_index_array 6 7 8))
  /\ exists r : range D2,
       Range.of_index_array D2 (mk_index_array 6 7 8) = Ok r
       /\ Range.size D2 r
          = Ok (get_count_impl (IndexArrayOperators.to_index_array r)).
Proof.
  assert (H : is_size_t (m_idx0 (mk_index_array 6 7 8)))
    by (unfold is_size_t, SizeT.modulus; cbn; lia).
  split; [exact H |].
  apply (range_size_is_element_count D2 (mk_index_array 6 7 8) H).
Defined.

Lemma physical_local_id_stays_inside_local_range_witness :
  local_range_positive D2 sample_group
  /\ exists items : list h_item_base,
       Group.parallel_for_work_item D2 sample_group sample_flexible_range
       = Ok items
       /\ Forall (fun h => inside_range (physical_local_item h)
                           /\ item_range (physical_local_item h)
                              = leading D2 1 (m_localRange sample_group))
                 items.
Proof.
  split; [exact sample_group_local_range_positive |].
  apply (physical_local_id_stays_inside_local_range D2 sample_group
           sample_flexible_range sample_group_local_range_positive).
Defined.

Lemma parallel_for_work_item_over_local_range_witness :
  local_range_positive D2 sample_group
  /\ exists items : list h_item_base,
       Group.parallel_for_work_item_local D2 sample_group = Ok items
       /\ List.length items = 4%nat
       /\ Forall (fun h => logical_local_item h = physical_local_item h)
                 items.
Proof.
  split; [exact sample_group_local_range_positive |].
  apply (parallel_for_work_item_over_local_range D2 sample_group
           sample_group_local_range_positive).
Defined.

Lemma empty_flexible_range_calls_nothing_witness :
  element (dims := D1) (C := range_child)
    (IndexArrayOperators.of_index_array (mk_index_array 1 1 0)) 2 = 0
  /\ Group.parallel_for_work_item D1 degenerate_group
       (IndexArrayOperators.of_index_array (mk_index_array 1 1 0)) = Ok [].
Proof.
  split; [reflexivity |].
  apply (empty_flexible_range_calls_nothing D1 degenerate_group
           (IndexArrayOperators.of_index_array (mk_index_array 1 1 0))).
  left. reflexivity.
Defined.

Lemma global_id_stays_inside_global_range_witness :
  group_consistent D2 sample_group
  /\ exists items : list h_item_base,
       Group.parallel_for_work_item D2 sample_group sample_flexible_range
       = Ok items
       /\ Forall (fun h => inside_range (global_item h)
                           /\ item_range (global_item h)
                              = leading D2 1 (m_globalRange sample_group))
                 items.
Proof.
  split; [exact sample_group_consistent |].
  apply (global_id_stays_inside_global_range D2 sample_group
           sample_flexible_range sample_group_consistent).
Defined.

(** * The reduction inside one work group *)

Section WorkGroupReductionFacts.

Variable T : Type.
Variable bop : T -> T -> T.
Hypothesis bop_assoc : forall x y z, bop x (bop y z) = bop (bop x y) z.
Hypothesis bop_comm : forall x y, bop x y = bop y x.

Lemma accumulate_ext (f g : Z -> T) (a : Z) (k : nat) :
  (forall i, a <= i <= a + Z.of_nat k -> f i = g i) ->
  accumulate_from bop f a k = accumulate_from bop g a k.
Proof.
  induction k as [| k IH]; intros H; cbn [accumulate_from].
  - apply H. lia.
  - rewrite IH by (intros i Hi; apply H; lia).
    rewrite H by lia. reflexivity.
Qed.

Lemma accumulate_shift (s : Z -> T) (a c : Z) (k : nat) :
  accumulate_from bop (fun i => s (i + c)) a k
  = accumulate_from bop s (a + c) k.
Proof.
  induction k as [| k IH]; cbn [accumulate_from]; [reflexivity |].
  rewrite IH. do 2 f_equal. lia.
Qed.

Lemma accumulate_pointwise (f g : Z -> T) (a : Z) (k : nat) :
  accumulate_from bop (fun i => bop (f i) (g i)) a k
  = bop (accumulate_from bop f a k) (accumulate_from bop g a k).
Proof.
  induction k as [| k IH]; cbn [accumulate_from]; [reflexivity |].
  rewrite IH.
  set (F := accumulate_from bop f a k). set (G := accumulate_from bop g a k).
  set (x := f _). set (y := g _).
  rewrite <- (bop_assoc F G (bop x y)), (bop_assoc G x y), (bop_comm G x),
    <- (bop_assoc x G y), (bop_assoc F x (bop G y)).
  reflexivity.
Qed.

Lemma accumulate_split (s : Z -> T) (a : Z) (k k' : nat) :
  accumulate_from bop s a (k + S k')
  = bop (accumulate_from bop s a k)
        (accumulate_from bop s (a + Z.of_nat (S k)) k').
Proof.
  induction k' as [| k' IH].
  - rewrite Nat.add_1_r. reflexivity.
  - rewrite Nat.add_succ_r. cbn [accumulate_from]. rewrite IH.
    rewrite <- bop_assoc. do 3 f_equal. lia.
Qed.

Lemma fold_left_assoc (l : list T) (x y : T) :
  bop x (fold_left bop l y) = fold_left bop l (bop x y).
Proof.
  revert y. induction l as [| z l IH]; intros y; cbn; [reflexivity |].
  rewrite IH, bop_assoc. reflexivity.
Qed.

Lemma accumulate_fold (s : Z -> T) (k : nat) :
  accumulate_from bop s 0 k
  = fold_left bop (map s (map Z.of_nat (seq 1 k))) (s 0).
Proof.
  induction k as [| k IH]; [reflexivity |].
  cbn [accumulate_from]. rewrite seq_S, !map_app, fold_left_app, <- IH.
  cbn [map fold_left]. do 2 f_equal.
Qed.

Lemma reduction_loop_power (m : nat) :
  forall (fuel : nat) (s : Z -> T),
    (m <= fuel)%nat ->
    exists s' : Z -> T,
      reduction_loop bop fuel (2 ^ Z.of_nat m / 2) s = Some s'
      /\ s' 0 = accumulate_from bop s 0 (2 ^ m - 1).
Proof.
  induction m as [| m IH]; intros fuel s Hfuel.
  - exists s. split; [destruct fuel; reflexivity | reflexivity].
  - destruct fuel as [| fuel]; [lia |].
    assert (Hpow : 2 ^ Z.of_nat (S m) / 2 = 2 ^ Z.of_nat m).
    { rewrite Nat2Z.inj_succ, Z.pow_succ_r by lia.
      rewrite Z.mul_comm. apply Z.div_mul. lia. }
    assert (Hpos : 0 < 2 ^ Z.of_nat m) by (apply Z.pow_pos_nonneg; lia).
    assert (Hnat : Z.of_nat (2 ^ m) = 2 ^ Z.of_nat m).
    { rewrite Nat2Z.inj_pow. reflexivity. }
    assert (Hn1 : (1 <= 2 ^ m)%nat) by lia.
    rewrite Hpow. cbn [reduction_loop].
    destruct (Z.ltb_spec 0 (2 ^ Z.of_nat m)) as [_ | Hc]; [| lia].
    destruct (IH fuel (reduction_pass bop (2 ^ Z.of_nat m) s) ltac:(lia))
      as (s' & Hrun & Hzero).
    exists s'. split; [exact Hrun |]. rewrite Hzero.
    rewrite (accumulate_ext _
               (fun i => bop (s i) (s (i + 2 ^ Z.of_nat m)))).
    + rewrite accumulate_pointwise, accumulate_shift.
      replace (2 ^ S m - 1)%nat with ((2 ^ m - 1) + S (2 ^ m - 1))%nat
        by (cbn [Nat.pow]; lia).
      rewrite accumulate_split. do 2 f_equal. lia.
    + intros i Hi. unfold reduction_pass.
      destruct (Z.leb_spec 0 i); [| lia].
      destruct (Z.ltb_spec i (2 ^ Z.of_nat m)); [reflexivity | lia].
Qed.

End WorkGroupReductionFacts.

Lemma to_int_power (m : nat) :
  (m <= 30)%nat -> to_int (2 ^ Z.of_nat m) = 2 ^ Z.of_nat m.
Proof.
  intros Hm. unfold to_int.
  assert (0 < 2 ^ Z.of_nat m) by (apply Z.pow_pos_nonneg; lia).
  assert (2 ^ Z.of_nat m <= 2 ^ 30) by (apply Z.pow_le_mono_r; lia).
  rewrite Z.mod_small by lia.
  destruct (Z.ltb_spec (2 ^ Z.of_nat m) (2 ^ 31)); [reflexivity | lia].
Qed.

(** X26. In a work group of 2^m work items (m at most 30, the group size
    being an [int]), with an associative and commutative [bop], the loop of
    the reduction kernel ends after m passes and leaves in element 0 of the
    local memory the combination of all the 2^m elements; combined with
    [init] it is what [std::accumulate] gives on these elements. *)
Theorem work_group_reduce_power_of_two
    (T : Type) (bop : T -> T -> T) (init : T) (scratch : Z -> T)
    (m fuel : nat) :
  (forall x y z, bop x (bop y z) = bop (bop x y) z) ->
  (forall x y, bop x y = bop y x) ->
  (m <= 30)%nat ->
  (m <= fuel)%nat ->
  exists s' : Z -> T,
    work_group_reduce bop fuel (2 ^ Z.of_nat m) scratch = Some s'
    /\ bop init (s' 0)
       = fold_left bop (map scratch (counter_values (2 ^ Z.of_nat m))) init.
Proof.
  intros Hassoc Hcomm Hint Hfuel.
  destruct (reduction_loop_power T bop Hassoc Hcomm m fuel scratch Hfuel)
    as (s' & Hrun & Hzero).
  exists s'. split.
  { unfold work_group_reduce. rewrite (to_int_power m Hint).
    rewrite Z.quot_div_nonneg by lia.
    rewrite wrap_small; [exact Hrun |].
    assert (0 < 2 ^ Z.of_nat m) by (apply Z.pow_pos_nonneg; lia).
    assert (2 ^ Z.of_nat m <= 2 ^ 30) by (apply Z.pow_le_mono_r; lia).
    unfold SizeT.modulus. split; [apply Z.div_pos; lia |].
    apply Z.div_lt_upper_bound; lia. }
  rewrite Hzero, (accumulate_fold T bop), (fold_left_assoc T bop Hassoc).
  unfold counter_values.
  rewrite <- Nat2Z.inj_pow with (n := 2%nat), Nat2Z.id.
  assert (Hn1 : (1 <= 2 ^ m)%nat).
  { clear. induction m; cbn; lia. }
  replace (2 ^ m)%nat with (S (2 ^ m - 1)) at 2 by lia.
  cbn [seq map fold_left]. reflexivity.
Qed.

Lemma work_group_reduce_power_of_two_witness :
  (forall x y z, Z.add x (Z.add y z) = Z.add (Z.add x y) z)
  /\ (forall x y, Z.add x y = Z.add y x)
  /\ (2 <= 30)%nat
  /\ (2 <= 2)%nat
  /\ exists s' : Z -> Z,
       work_group_reduce Z.add 2 (2 ^ Z.of_nat 2) (fun i => 10 + i) = Some s'
       /\ Z.add 100 (s' 0)
          = fold_left Z.add
              (map (fun i => 10 + i) (counter_values (2 ^ Z.of_nat 2))) 100.
Proof.
  split; [intros; lia |]. split; [intros; lia |].
  split; [lia |]. split; [lia |].
  apply (work_group_reduce_power_of_two Z Z.add 100 (fun i => 10 + i) 2 2);
    intros; lia.
Defined.

Example work_group_reduce_of_six_loses_elements :
  option_map (fun s' => s' 0)
    (work_group_reduce Z.add 6 6 (fun i => 10 ^ i))
  = Some 11011.
Proof. reflexivity. Qed.
